(** * Conversion state container of the input method: Segment, Candidate, Segments

    A shallow embedding of [src/converter/segments.h].

    - Integers are [Z]; where the source computes in a fixed width the
      wrap-around is written out ([int_wrap], [to_size_t], [to_uint32]).
    - [std::string] is [string] (a byte string), [absl::string_view] is the
      bytes it shows.
    - [std::deque<T *>] is a [list addr] next to a store [gmap addr T] that
      holds the pointed-to objects: a write through a pointer changes the
      store, the deque of pointers stays as it is.
    - A call ends in one of three ways, see [outcome]. *)

From Stdlib Require Import ZArith String Ascii Lia.
From stdpp Require Import base option list gmap strings.

Local Open Scope Z_scope.

(** ** Outcomes of a call *)

(** [Returns a]: the call returns [a].  [Aborts]: a [CHECK] (or, in a debug
    build, a [DCHECK]) failed and the process is aborted.  [Undefined]: the
    call indexes a container out of range or reads through a pointer to no
    object, which C++ leaves undefined. *)
Inductive outcome (A : Type) : Type :=
| Returns (a : A)
| Aborts
| Undefined.
Arguments Returns {A} a.
Arguments Aborts {A}.
Arguments Undefined {A}.

#[global] Instance outcome_ret : MRet outcome := fun A a => Returns a.
#[global] Instance outcome_bind : MBind outcome := fun A B f m =>
  match m with
  | Returns a => f a
  | Aborts => Aborts
  | Undefined => Undefined
  end.

(** Modelled from the spec: the macros [CHECK], [CHECK_GE] and [CHECK_LT]
    come from base/logging.h, which is not part of the sources.  The spec:
    a violated bounds check of a range aborts the process. *)
Definition CHECK (b : bool) : outcome unit :=
  if b then Returns tt else Aborts.
Definition CHECK_GE (a b : Z) : outcome unit := CHECK (b <=? a).
Definition CHECK_LT (a b : Z) : outcome unit := CHECK (a <? b).

(** Modelled from the spec: [DCHECK] and [DCHECK_LT] come from
    base/logging.h as well.  The spec calls them assertions on a programmer
    error: checked as [CHECK] in a debug build, compiled out when [NDEBUG]
    is defined ([ndebug = true]). *)
Definition DCHECK (ndebug : bool) (b : bool) : outcome unit :=
  if ndebug then Returns tt else CHECK b.
Definition DCHECK_LT (ndebug : bool) (a b : Z) : outcome unit :=
  DCHECK ndebug (a <? b).

(** ** Machine integers *)

(** [int]: 32 bits, two's complement. *)
Definition int_min : Z := - 2 ^ 31.
Definition int_max : Z := 2 ^ 31 - 1.
Definition int_range (i : Z) : Prop := int_min <= i <= int_max.
Definition int_wrap (z : Z) : Z := (z + 2 ^ 31) mod 2 ^ 32 - 2 ^ 31.
Definition int_neg (i : Z) : Z := int_wrap (- i).
Definition int_sub (a b : Z) : Z := int_wrap (a - b).

(** [size_t]: 64 bits, unsigned.  [to_size_t] is the conversion of an [int]
    operand that meets a [size_t] one, and the wrap-around of [size_t]
    arithmetic. *)
Definition size_t_range (n : Z) : Prop := 0 <= n < 2 ^ 64.
Definition to_size_t (z : Z) : Z := z mod 2 ^ 64.

(** [uint32_t]. *)
Definition to_uint32 (z : Z) : Z := z mod 2 ^ 32.

(** A length that fits one byte of an inner-segment boundary code. *)
Definition byte_range (n : Z) : Prop := 0 <= n <= 255.

(** ** Containers and pointers *)

Definition addr : Type := positive.

(** [c.size()]. *)
Definition size {A : Type} (l : list A) : Z := Z.of_nat (length l).

(** [c[i]] of a deque or vector: no bounds check. *)
Definition at_ {A : Type} (l : list A) (i : Z) : outcome A :=
  if i <? 0 then Undefined
  else match l !! Z.to_nat i with
       | Some x => Returns x
       | None => Undefined
       end.

(** [*p]: the object [p] points to in the store [h]. *)
Definition deref {A : Type} (h : gmap addr A) (p : addr) : outcome A :=
  match h !! p with
  | Some x => Returns x
  | None => Undefined
  end.

(** ** Segment::Candidate *)

Module Candidate.

Inductive Command : Type :=
| DEFAULT_COMMAND
| ENABLE_INCOGNITO_MODE
| DISABLE_INCOGNITO_MODE
| ENABLE_PRESENTATION_MODE
| DISABLE_PRESENTATION_MODE.

Inductive Category : Type :=
| DEFAULT_CATEGORY
| SYMBOL
| OTHER.

(** Modelled from the spec: [NumberUtil::NumberString::Style] is declared
    in base/number_util.h, which is not part of the sources.  The spec: an
    external enumeration that a candidate embeds and does not interpret;
    here the number of the enumerator. *)
Definition Style : Type := Z.
Definition DEFAULT_STYLE : Style := 0.

Record Candidate : Type := mkCandidate {
  key : string;
  value : string;
  content_key : string;
  content_value : string;
  consumed_key_size : Z;
  prefix : string;
  suffix : string;
  description : string;
  a11y_description : string;
  usage_id : Z;
  usage_title : string;
  usage_description : string;
  cost : Z;
  wcost : Z;
  structure_cost : Z;
  lid : Z;
  rid : Z;
  attributes : Z;
  source_info : Z;
  category : Category;
  style : Style;
  command : Command;
  inner_segment_boundary : list Z;
  cost_before_rescoring : Z;
  log : string                      (* MOZC_CANDIDATE_DEBUG *)
}.

(** The default member initialisers. *)
Definition default : Candidate :=
  {| key := EmptyString; value := EmptyString;
     content_key := EmptyString; content_value := EmptyString;
     consumed_key_size := 0;
     prefix := EmptyString; suffix := EmptyString;
     description := EmptyString; a11y_description := EmptyString;
     usage_id := 0;
     usage_title := EmptyString; usage_description := EmptyString;
     cost := 0; wcost := 0; structure_cost := 0;
     lid := 0; rid := 0; attributes := 0; source_info := 0;
     category := DEFAULT_CATEGORY; style := DEFAULT_STYLE;
     command := DEFAULT_COMMAND;
     inner_segment_boundary := [];
     cost_before_rescoring := 0; log := EmptyString |}.

Definition set_value (v : string) (c : Candidate) : Candidate :=
  {| key := key c; value := v;
     content_key := content_key c; content_value := content_value c;
     consumed_key_size := consumed_key_size c;
     prefix := prefix c; suffix := suffix c;
     description := description c; a11y_description := a11y_description c;
     usage_id := usage_id c; usage_title := usage_title c;
     usage_description := usage_description c;
     cost := cost c; wcost := wcost c; structure_cost := structure_cost c;
     lid := lid c; rid := rid c;
     attributes := attributes c; source_info := source_info c;
     category := category c; style := style c; command := command c;
     inner_segment_boundary := inner_segment_boundary c;
     cost_before_rescoring := cost_before_rescoring c; log := log c |}.

Definition set_inner_segment_boundary (b : list Z) (c : Candidate)
  : Candidate :=
  {| key := key c; value := value c;
     content_key := content_key c; content_value := content_value c;
     consumed_key_size := consumed_key_size c;
     prefix := prefix c; suffix := suffix c;
     description := description c; a11y_description := a11y_description c;
     usage_id := usage_id c; usage_title := usage_title c;
     usage_description := usage_description c;
     cost := cost c; wcost := wcost c; structure_cost := structure_cost c;
     lid := lid c; rid := rid c;
     attributes := attributes c; source_info := source_info c;
     category := category c; style := style c; command := command c;
     inner_segment_boundary := b;
     cost_before_rescoring := cost_before_rescoring c; log := log c |}.

(** [s.size()] of a string. *)
Definition ssize (s : string) : Z := Z.of_nat (String.length s).

(** [absl::string_view(s.data() + pos, n)]: the [n] bytes of [s] from
    offset [pos]. *)
Definition string_view (s : string) (pos n : Z) : string :=
  String.substring (Z.to_nat pos) (Z.to_nat n) s.

(** The suffix of [s] past its first [n] bytes; empty when [s] has no more
    than [n] bytes. *)
Fixpoint suffix_past (n : nat) (s : string) : string :=
  match n, s with
  | O, _ => s
  | S n', String _ s' => suffix_past n' s'
  | S _, EmptyString => EmptyString
  end.

(** [functional_key()], segments.h:723. *)
Definition functional_key (c : Candidate) : string :=
  if ssize (key c) <=? ssize (content_key c)
  then EmptyString
  else string_view (key c) (ssize (content_key c))
                   (ssize (key c) - ssize (content_key c)).

(** [functional_value()], segments.h:730. *)
Definition functional_value (c : Candidate) : string :=
  if ssize (value c) <=? ssize (content_value c)
  then EmptyString
  else string_view (value c) (ssize (content_value c))
                   (ssize (value c) - ssize (content_value c)).

(** Modelled from the spec: the five-argument [EncodeLengths] is declared
    in segments.h and defined in segments.cc, which is not part of the
    sources.  The spec: the four lengths, each at most 255, are packed
    into a 32-bit word, one byte per field, most significant byte first
    (key, value, content key, content value); encoding fails when a length
    exceeds 255.  [Some code] stands for a [true] return with [*result]
    set to [code], [None] for a [false] return. *)
Definition EncodeLengths (key_len value_len content_key_len
                          content_value_len : Z) : option Z :=
  if (255 <? key_len) || (255 <? value_len)
     || (255 <? content_key_len) || (255 <? content_value_len)
  then None
  else Some (Z.lor (Z.lor (Z.lor (to_uint32 (Z.shiftl (to_uint32 key_len) 24))
                                 (to_uint32 (Z.shiftl (to_uint32 value_len) 16)))
                          (to_uint32 (Z.shiftl (to_uint32 content_key_len) 8)))
                   (to_uint32 content_value_len)).

(** The four-argument [EncodeLengths] of segments.h:244, which ignores the
    error: it returns its local [result], whose value [uninit] is
    indeterminate unless the encoding stored one. *)
Definition EncodeLengths_unchecked (uninit : Z)
    (key_len value_len content_key_len content_value_len : Z) : Z :=
  match EncodeLengths key_len value_len content_key_len content_value_len
  with
  | Some result => result
  | None => uninit
  end.

(** Modelled from the spec: decoding is done by [InnerSegmentIterator],
    whose member functions are defined in segments.cc.  The spec fixes the
    layout: byte 3 is the key length, byte 2 the value length, byte 1 the
    content key length, byte 0 the content value length. *)
Definition byte_of (code : Z) (k : Z) : Z :=
  Z.land (Z.shiftr code (8 * k)) 255.
Definition DecodeLengths (code : Z) : Z * Z * Z * Z :=
  (byte_of code 3, byte_of code 2, byte_of code 1, byte_of code 0).

(** Modelled from the spec: [PushBackInnerSegmentBoundary] is declared in
    segments.h:255 and defined in segments.cc.  The spec: it appends one
    packed code, fails if any length exceeds 255, and leaves the sequence
    unchanged on failure.  The result pairs the returned [bool] with the
    candidate after the call. *)
Definition PushBackInnerSegmentBoundary (c : Candidate)
    (key_len value_len content_key_len content_value_len : Z)
  : bool * Candidate :=
  match EncodeLengths key_len value_len content_key_len content_value_len
  with
  | Some encoded =>
      (true, set_inner_segment_boundary
               (inner_segment_boundary c ++ [encoded]) c)
  | None => (false, c)
  end.

End Candidate.

(** ** Segment *)

Module Segment.

Inductive SegmentType : Type :=
| FREE
| FIXED_BOUNDARY
| FIXED_VALUE
| SUBMITTED
| HISTORY.

(** [candidates_] holds pointers; the candidates they point to are owned
    by [pool_], here the store of those objects by address.
    [meta_candidates_] holds its candidates by value. *)
Record Segment : Type := mkSegment {
  segment_type_ : SegmentType;
  key_ : string;
  candidates_ : list addr;
  meta_candidates_ : list Candidate.Candidate;
  pool_ : gmap addr Candidate.Candidate;
  removed_candidates_for_debug_ : list Candidate.Candidate
}.

Definition set_pool_ (h : gmap addr Candidate.Candidate) (s : Segment)
  : Segment :=
  {| segment_type_ := segment_type_ s; key_ := key_ s;
     candidates_ := candidates_ s;
     meta_candidates_ := meta_candidates_ s;
     pool_ := h;
     removed_candidates_for_debug_ := removed_candidates_for_debug_ s |}.

Definition segment_type (s : Segment) : SegmentType := segment_type_ s.
Definition set_segment_type (t : SegmentType) (s : Segment) : Segment :=
  {| segment_type_ := t; key_ := key_ s;
     candidates_ := candidates_ s;
     meta_candidates_ := meta_candidates_ s;
     pool_ := pool_ s;
     removed_candidates_for_debug_ := removed_candidates_for_debug_ s |}.

Definition key (s : Segment) : string := key_ s.
Definition set_key (k : string) (s : Segment) : Segment :=
  {| segment_type_ := segment_type_ s; key_ := k;
     candidates_ := candidates_ s;
     meta_candidates_ := meta_candidates_ s;
     pool_ := pool_ s;
     removed_candidates_for_debug_ := removed_candidates_for_debug_ s |}.

Definition candidates_size (s : Segment) : Z := size (candidates_ s).
Definition meta_candidates_size (s : Segment) : Z :=
  size (meta_candidates_ s).

(** [clear_meta_candidates()], segments.h:379. *)
Definition clear_meta_candidates (s : Segment) : Segment :=
  {| segment_type_ := segment_type_ s; key_ := key_ s;
     candidates_ := candidates_ s;
     meta_candidates_ := [];
     pool_ := pool_ s;
     removed_candidates_for_debug_ := removed_candidates_for_debug_ s |}.

(** A [Candidate &] or [Candidate *] handed out by a segment: the object
    at an address of the pool, or an element of [meta_candidates_]. *)
Inductive CandidateRef : Type :=
| Pooled (p : addr)
| Meta (k : Z).

(** The candidate a reference shows in a state of the segment. *)
Definition read (s : Segment) (r : CandidateRef)
  : option Candidate.Candidate :=
  match r with
  | Pooled p => pool_ s !! p
  | Meta k => if k <? 0 then None else meta_candidates_ s !! Z.to_nat k
  end.

(** [is_valid_index], segments.h:737.  [-i - 1] is computed in [int]; it
    and [i] are converted to [size_t] for the comparisons. *)
Definition is_valid_index (s : Segment) (i : Z) : bool :=
  if i <? 0
  then to_size_t (int_sub (int_neg i) 1) <? size (meta_candidates_ s)
  else to_size_t i <? size (candidates_ s).

(** Modelled from the spec: [meta_candidate(size_t)] is declared in
    segments.h:386 and defined in segments.cc.  The spec: the
    meta-candidate accessors mirror the candidate accessors on the value
    vector, [candidate(i)] for [i < 0] is [meta_candidates[-i-1]], and an
    index out of range is a programmer error (assertion). *)
Definition meta_candidate (ndebug : bool) (s : Segment) (i : Z)
  : outcome CandidateRef :=
  DCHECK_LT ndebug i (size (meta_candidates_ s));;
  at_ (meta_candidates_ s) i;;
  mret (Meta i).

(** The literal of segments.h:750. *)
Definition literal_750 : string := "こかすた〜".

(** Modelled from the spec: segments.h declares no assignment of a string
    to a [Candidate]; the spec reads [*candidates_[i] = "..."] as a write
    of the literal into the [value] field of the candidate. *)
Definition assign_literal (c : Candidate.Candidate) (s : string)
  : Candidate.Candidate :=
  Candidate.set_value s c.

(** [candidate(int) const], segments.h:745.  The result pairs the
    reference returned with the segment after the call. *)
Definition candidate (ndebug : bool) (s : Segment) (i : Z)
  : outcome (CandidateRef * Segment) :=
  if i <? 0 then
    r ← meta_candidate ndebug s (to_size_t (int_sub (int_neg i) 1));
    mret (r, s)
  else
    DCHECK ndebug (to_size_t i <? size (candidates_ s));;
    p ← at_ (candidates_ s) (to_size_t i);
    c ← deref (pool_ s) p;
    let s' := set_pool_ (<[p := assign_literal c literal_750]> (pool_ s)) s in
    p' ← at_ (candidates_ s') (to_size_t i);
    deref (pool_ s') p';;
    mret (Pooled p', s').

(** [mutable_candidate(int)], segments.h:754. *)
Definition mutable_candidate (ndebug : bool) (s : Segment) (i : Z)
  : outcome CandidateRef :=
  if i <? 0 then
    let meta_index := to_size_t (int_sub (int_neg i) 1) in
    DCHECK_LT ndebug meta_index (size (meta_candidates_ s));;
    at_ (meta_candidates_ s) meta_index;;
    mret (Meta meta_index)
  else
    DCHECK_LT ndebug (to_size_t i) (size (candidates_ s));;
    p ← at_ (candidates_ s) (to_size_t i);
    mret (Pooled p).

(** Every pointer of [candidates_] points to a candidate of the pool. *)
Definition pointers_live (s : Segment) : Prop :=
  Forall (fun p => is_Some (pool_ s !! p)) (candidates_ s).

End Segment.

(** ** Segments *)

Module Segments.

Record RevertEntry : Type := mkRevertEntry {
  revert_entry_type : Z;
  id : Z;
  timestamp : Z;
  revert_key : string               (* RevertEntry::key *)
}.

(** An iterator wraps an iterator of [segments_]: a position in the
    deque.  [difference_type] is [Z]. *)
Definition Iterator : Type := Z.

(** [Range]: the pair [begin_], [end_]. *)
Record Range : Type := mkRange {
  begin_ : Iterator;
  end_ : Iterator
}.

Definition Range_size (r : Range) : Z := end_ r - begin_ r.
Definition Range_empty (r : Range) : bool := begin_ r =? end_ r.

(** [drop], segments.h:573. *)
Definition Range_drop (r : Range) (count : Z) : outcome Range :=
  CHECK_GE count 0;;
  mret (mkRange (if count <? Range_size r then begin_ r + count
                 else end_ r)
                (end_ r)).

(** [take], segments.h:578. *)
Definition Range_take (r : Range) (count : Z) : outcome Range :=
  CHECK_GE count 0;;
  mret (mkRange (begin_ r)
                (if count <? Range_size r then begin_ r + count
                 else end_ r)).

(** [take_last], segments.h:583. *)
Definition Range_take_last (r : Range) (count : Z) : outcome Range :=
  CHECK_GE count 0;;
  Range_drop r (Z.max 0 (Range_size r - count)).

(** [subrange], segments.h:589. *)
Definition Range_subrange (r : Range) (index count : Z) : outcome Range :=
  r' ← Range_drop r index;
  Range_take r' count.

Section WithLattice.

(** [Lattice] is declared in converter/lattice.h, which is not part of the
    sources; the container owns one and does not look into it.
    [ObjectPool<Segment>] of base/container/freelist.h owns the segments
    that [segments_] points to: [pool_] is the store of those segments by
    address. *)
Context {Lattice : Type}.

Record Segments : Type := mkSegments {
  max_history_segments_size_ : Z;
  resized_ : bool;
  pool_ : gmap addr Segment.Segment;
  segments_ : list addr;
  revert_entries_ : list RevertEntry;
  cached_lattice_ : Lattice
}.

Implicit Type ss : Segments.

(** [begin()], [end()]. *)
Definition begin ss : Iterator := 0.
Definition end' ss : Iterator := size (segments_ ss).

(** [Iterator::operator*]: [**iterator_]. *)
Definition Iterator_deref ss (it : Iterator) : outcome addr :=
  p ← at_ (segments_ ss) it;
  deref (pool_ ss) p;;
  mret p.

(** [Range::operator[]], segments.h:558. *)
Definition Range_at ss (r : Range) (index : Z) : outcome addr :=
  CHECK_GE index 0;;
  CHECK_LT index (Range_size r);;
  Iterator_deref ss (begin_ r + index).

(** [Range::front], segments.h:563. *)
Definition Range_front ss (r : Range) : outcome addr :=
  CHECK (negb (Range_empty r));;
  Iterator_deref ss (begin_ r).

(** [Range::back], segments.h:567. *)
Definition Range_back ss (r : Range) : outcome addr :=
  CHECK (negb (Range_empty r));;
  Iterator_deref ss (end_ r - 1).

Definition make_range (b e : Iterator) : Range := mkRange b e.

(** [all()], segments.h:621. *)
Definition all ss : Range := make_range (begin ss) (end' ss).

Definition segments_size ss : Z := size (segments_ ss).

(** [segment(i)], segments.h:629: a reference to [*segments_[i]]. *)
Definition segment ss (i : Z) : outcome addr :=
  p ← at_ (segments_ ss) i;
  deref (pool_ ss) p;;
  mret p.

(** [history_segment(i)], segments.h:633. *)
Definition history_segment ss (i : Z) : outcome addr :=
  p ← at_ (segments_ ss) i;
  deref (pool_ ss) p;;
  mret p.

(** [mutable_segment(i)], segments.h:636: the pointer [segments_[i]]. *)
Definition mutable_segment ss (i : Z) : outcome addr :=
  at_ (segments_ ss) i.

Definition is_history_type (t : Segment.SegmentType) : bool :=
  match t with
  | Segment.HISTORY | Segment.SUBMITTED => true
  | _ => false
  end.

(** Modelled from the spec: [history_segments_size()] is declared in
    segments.h:651 and defined in segments.cc.  The spec: it is computed
    on demand, by a scan from the front, as the length of the leading
    run of segments whose type is HISTORY or SUBMITTED. *)
Fixpoint history_scan (h : gmap addr Segment.Segment) (l : list addr)
  : outcome Z :=
  match l with
  | [] => mret 0
  | p :: l' =>
      s ← deref h p;
      if is_history_type (Segment.segment_type s)
      then n ← history_scan h l'; mret (n + 1)
      else mret 0
  end.
Definition history_segments_size ss : outcome Z :=
  history_scan (pool_ ss) (segments_ ss).

(** [conversion_segments_size()], segments.h:652, in [size_t]. *)
Definition conversion_segments_size ss : outcome Z :=
  h ← history_segments_size ss;
  mret (to_size_t (segments_size ss - h)).

(** [conversion_segment(i)], segments.h:630. *)
Definition conversion_segment ss (i : Z) : outcome addr :=
  h ← history_segments_size ss;
  p ← at_ (segments_ ss) (to_size_t (i + h));
  deref (pool_ ss) p;;
  mret p.

(** [mutable_conversion_segment(i)], segments.h:637. *)
Definition mutable_conversion_segment ss (i : Z) : outcome addr :=
  h ← history_segments_size ss;
  at_ (segments_ ss) (to_size_t (i + h)).

(** Modelled from the spec: [history_segments()] and
    [conversion_segments()] are declared in segments.h:623-626 and
    defined in segments.cc.  The spec: half-open ranges over the history
    prefix and over the conversion suffix of the segment list. *)
Definition history_segments ss : outcome Range :=
  h ← history_segments_size ss;
  mret (make_range (begin ss) (begin ss + h)).
Definition conversion_segments ss : outcome Range :=
  h ← history_segments_size ss;
  mret (make_range (begin ss + h) (end' ss)).

(** Modelled from the spec: [history_key(size)] is declared in
    segments.h:679 and defined in segments.cc.  The spec: it
    concatenates, in order, the keys of the last
    [min(size, history_segments_size())] history segments, and
    [size = -1] means all of them.  [append_keys] is the loop over
    those segments, [output] the string built so far. *)
Fixpoint append_keys ss (i : Z) (n : nat) (output : string)
  : outcome string :=
  match n with
  | O => mret output
  | S n' =>
      p ← history_segment ss i;
      s ← deref (pool_ ss) p;
      append_keys ss (i + 1) n' (output +:+ Segment.key s)
  end.
Definition history_key ss (size : Z) : outcome string :=
  h ← history_segments_size ss;
  let count := if size =? -1 then h else Z.min size h in
  append_keys ss (h - count) (Z.to_nat count) EmptyString.

(** *** Notions the statements below are written in *)

(** Every pointer of [segments_] points to a segment of the pool, and
    the number of segments is a [size_t]. *)
Definition well_formed ss : Prop :=
  Forall (fun p => is_Some (pool_ ss !! p)) (segments_ ss)
  /\ size_t_range (segments_size ss).

(** The segment at position [k] of the list has a history type. *)
Definition history_at ss (k : nat) : Prop :=
  exists p s, segments_ ss !! k = Some p /\ pool_ ss !! p = Some s
              /\ is_history_type (Segment.segment_type s) = true.

(** [n] segments at the front all have a history type. *)
Definition history_prefix ss (n : nat) : Prop :=
  (n <= length (segments_ ss))%nat
  /\ forall k, (k < n)%nat -> history_at ss k.

(** The references a range runs over, from [begin_] up to [end_]. *)
Definition Range_elements ss (r : Range) : list addr :=
  take (Z.to_nat (Range_size r))
       (drop (Z.to_nat (begin_ r)) (segments_ ss)).

(** A range that lies inside the segment list. *)
Definition Range_within ss (r : Range) : Prop :=
  0 <= begin_ r <= end_ r /\ end_ r <= size (segments_ ss).

(** [r] is the range that [all()], [history_segments()] or
    [conversion_segments()] returns. *)
Definition Range_returned ss (r : Range) : Prop :=
  r = all ss
  \/ history_segments ss = Returns r
  \/ conversion_segments ss = Returns r.

(** The segments of the list, read through their pointers. *)
Definition segment_values ss : list Segment.Segment :=
  omap (fun p => pool_ ss !! p) (segments_ ss).

End WithLattice.

Arguments Segments : clear implicits.

(** The longest prefix of a list all of whose elements pass [f]. *)
Fixpoint leading_run {A : Type} (f : A -> bool) (l : list A) : list A :=
  match l with
  | [] => []
  | x :: l' => if f x then x :: leading_run f l' else []
  end.

(** The history segments of a container, oldest first. *)
Definition history_list {Lattice : Type} (ss : Segments Lattice)
  : list Segment.Segment :=
  leading_run (fun s => is_history_type (Segment.segment_type s))
              (segment_values ss).

(** The last [n] elements of a list; all of them when [n] exceeds its
    length, none when [n] is not positive. *)
Definition last_n {A : Type} (n : Z) (l : list A) : list A :=
  drop (length l - Z.to_nat n) l.

(** The keys of a list of segments, concatenated in order. *)
Definition concat_keys (l : list Segment.Segment) : string :=
  foldr (fun s acc => Segment.key s +:+ acc) EmptyString l.

End Segments.

(** ** Concrete states *)

Module Scenario.

(** A candidate with the given reading and surface form, all of it
    content. *)
Definition cand (k v : string) : Candidate.Candidate :=
  {| Candidate.key := k; Candidate.value := v;
     Candidate.content_key := k; Candidate.content_value := v;
     Candidate.consumed_key_size := 0;
     Candidate.prefix := EmptyString; Candidate.suffix := EmptyString;
     Candidate.description := EmptyString;
     Candidate.a11y_description := EmptyString;
     Candidate.usage_id := 0;
     Candidate.usage_title := EmptyString;
     Candidate.usage_description := EmptyString;
     Candidate.cost := 0; Candidate.wcost := 0;
     Candidate.structure_cost := 0;
     Candidate.lid := 0; Candidate.rid := 0;
     Candidate.attributes := 0; Candidate.source_info := 0;
     Candidate.category := Candidate.DEFAULT_CATEGORY;
     Candidate.style := Candidate.DEFAULT_STYLE;
     Candidate.command := Candidate.DEFAULT_COMMAND;
     Candidate.inner_segment_boundary := [];
     Candidate.cost_before_rescoring := 0;
     Candidate.log := EmptyString |}.

(** A candidate whose key and value have a functional tail. *)
Definition tabeta : Candidate.Candidate :=
  {| Candidate.key := "tabeta"; Candidate.value := "eaten";
     Candidate.content_key := "tabe"; Candidate.content_value := "eat";
     Candidate.consumed_key_size := 0;
     Candidate.prefix := EmptyString; Candidate.suffix := EmptyString;
     Candidate.description := EmptyString;
     Candidate.a11y_description := EmptyString;
     Candidate.usage_id := 0;
     Candidate.usage_title := EmptyString;
     Candidate.usage_description := EmptyString;
     Candidate.cost := 0; Candidate.wcost := 0;
     Candidate.structure_cost := 0;
     Candidate.lid := 0; Candidate.rid := 0;
     Candidate.attributes := 0; Candidate.source_info := 0;
     Candidate.category := Candidate.DEFAULT_CATEGORY;
     Candidate.style := Candidate.DEFAULT_STYLE;
     Candidate.command := Candidate.DEFAULT_COMMAND;
     Candidate.inner_segment_boundary := [];
     Candidate.cost_before_rescoring := 0;
     Candidate.log := EmptyString |}.

(** A segment with three candidates, at the addresses 1, 2 and 3 of its
    pool, and two meta candidates. *)
Definition three_two : Segment.Segment :=
  {| Segment.segment_type_ := Segment.FREE;
     Segment.key_ := "kana";
     Segment.candidates_ := [1; 2; 3]%positive;
     Segment.meta_candidates_ := [cand "kana" "KANA"; cand "kana" "Kana"];
     Segment.pool_ :=
       <[1%positive := cand "kana" "first"]>
         (<[2%positive := cand "kana" "second"]>
            (<[3%positive := cand "kana" "third"]> ∅));
     Segment.removed_candidates_for_debug_ := [] |}.

(** A segment without candidates. *)
Definition seg (t : Segment.SegmentType) (k : string) : Segment.Segment :=
  {| Segment.segment_type_ := t;
     Segment.key_ := k;
     Segment.candidates_ := [];
     Segment.meta_candidates_ := [];
     Segment.pool_ := ∅;
     Segment.removed_candidates_for_debug_ := [] |}.

(** [mutable_segment(i)->set_segment_type(t)]: a write through the pointer
    [segments_[i]]. *)
Definition retype {Lattice : Type} (ss : Segments.Segments Lattice)
    (i : Z) (t : Segment.SegmentType)
  : outcome (Segments.Segments Lattice) :=
  p ← Segments.mutable_segment ss i;
  s ← deref (Segments.pool_ ss) p;
  mret {| Segments.max_history_segments_size_ :=
            Segments.max_history_segments_size_ ss;
          Segments.resized_ := Segments.resized_ ss;
          Segments.pool_ :=
            <[p := Segment.set_segment_type t s]> (Segments.pool_ ss);
          Segments.segments_ := Segments.segments_ ss;
          Segments.revert_entries_ := Segments.revert_entries_ ss;
          Segments.cached_lattice_ := Segments.cached_lattice_ ss |}.

(** Five segments of the types HISTORY, HISTORY, SUBMITTED, FREE and
    FIXED_BOUNDARY, at the addresses 1 to 5 of the pool. *)
Definition five : Segments.Segments unit :=
  {| Segments.max_history_segments_size_ := 0;
     Segments.resized_ := false;
     Segments.pool_ :=
       <[1%positive := seg Segment.HISTORY "ki"]>
         (<[2%positive := seg Segment.HISTORY "you"]>
            (<[3%positive := seg Segment.SUBMITTED "ha"]>
               (<[4%positive := seg Segment.FREE "ame"]>
                  (<[5%positive := seg Segment.FIXED_BOUNDARY "desu"]>
                     ∅))));
     Segments.segments_ := [1; 2; 3; 4; 5]%positive;
     Segments.revert_entries_ := [];
     Segments.cached_lattice_ := tt |}.

End Scenario.

(** * Properties *)

(** ** Arithmetic of the fixed-width integers *)

Lemma int_wrap_id (z : Z) : int_range z -> int_wrap z = z.
Proof.
  unfold int_range, int_min, int_max, int_wrap. intros Hz.
  rewrite Z.mod_small; lia.
Qed.

(** [-i - 1] in [int] is the mathematical [-i - 1] for every negative [i],
    [INT_MIN] included: there [-i] wraps to [INT_MIN] and the subtraction
    wraps back to [INT_MAX]. *)
Lemma int_meta_index (i : Z) :
  int_range i -> i < 0 -> int_sub (int_neg i) 1 = - i - 1.
Proof.
  unfold int_range, int_min, int_max, int_sub, int_neg, int_wrap.
  intros Hr Hn.
  destruct (Z.eq_dec i (- 2 ^ 31)) as [-> | Hne].
  - reflexivity.
  - rewrite (Z.mod_small (- i + 2 ^ 31)) by lia.
    rewrite Z.mod_small; lia.
Qed.

Lemma to_size_t_id (z : Z) : 0 <= z < 2 ^ 64 -> to_size_t z = z.
Proof. intros Hz. unfold to_size_t. apply Z.mod_small. lia. Qed.

Lemma to_size_t_int (z : Z) : 0 <= z -> int_range z -> to_size_t z = z.
Proof.
  unfold int_range, int_max. intros H0 Hr. apply to_size_t_id. lia.
Qed.

Lemma to_uint32_id (z : Z) : 0 <= z < 2 ^ 32 -> to_uint32 z = z.
Proof. intros Hz. unfold to_uint32. apply Z.mod_small. lia. Qed.

(** A word whose low [n] bits are clear takes a value below [2 ^ n] by
    [Z.lor] as it does by addition. *)
Lemma lor_high_low (hi lo n : Z) :
  0 <= n -> 0 <= lo < 2 ^ n -> Z.lor (hi * 2 ^ n) lo = hi * 2 ^ n + lo.
Proof.
  intros Hn Hlo. symmetry. apply Z.add_nocarry_lor.
  apply Z.bits_inj'. intros m Hm.
  rewrite Z.land_spec, Z.bits_0.
  destruct (Z.lt_ge_cases m n) as [Hlt | Hge].
  - rewrite Z.mul_pow2_bits_low by assumption. reflexivity.
  - destruct (Z.eq_dec lo 0) as [-> | Hpos].
    + rewrite Z.bits_0. apply andb_false_r.
    + rewrite (Z.bits_above_log2 lo m); [apply andb_false_r | lia |].
      apply Z.lt_le_trans with n; [|assumption].
      apply Z.log2_lt_pow2; lia.
Qed.

(** ** The inner-segment boundary code *)

Lemma EncodeLengths_overflow (k v ck cv : Z) :
  Candidate.EncodeLengths k v ck cv = None
  <-> 255 < k \/ 255 < v \/ 255 < ck \/ 255 < cv.
Proof.
  unfold Candidate.EncodeLengths.
  destruct (Z.ltb_spec 255 k), (Z.ltb_spec 255 v),
    (Z.ltb_spec 255 ck), (Z.ltb_spec 255 cv);
    simpl; split; intros Hx; try discriminate; try lia; auto.
Qed.

(** In range, the code is the base-256 number with digits [k v ck cv]. *)
Lemma EncodeLengths_value (k v ck cv : Z) :
  byte_range k -> byte_range v -> byte_range ck -> byte_range cv ->
  Candidate.EncodeLengths k v ck cv
  = Some (k * 2 ^ 24 + v * 2 ^ 16 + ck * 2 ^ 8 + cv).
Proof.
  unfold byte_range. intros Hk Hv Hck Hcv.
  destruct (Candidate.EncodeLengths k v ck cv) as [code|] eqn:E.
  - revert E. unfold Candidate.EncodeLengths.
    destruct (_ || _); [discriminate|].
    intros [= <-]. f_equal.
    rewrite (to_uint32_id k), (to_uint32_id v), (to_uint32_id ck),
      (to_uint32_id cv) by lia.
    rewrite !Z.shiftl_mul_pow2 by lia.
    rewrite !to_uint32_id by lia.
    rewrite (lor_high_low k (v * 2 ^ 16) 24) by lia.
    replace (k * 2 ^ 24 + v * 2 ^ 16)
      with ((k * 2 ^ 8 + v) * 2 ^ 16) by lia.
    rewrite (lor_high_low _ (ck * 2 ^ 8) 16) by lia.
    replace ((k * 2 ^ 8 + v) * 2 ^ 16 + ck * 2 ^ 8)
      with (((k * 2 ^ 8 + v) * 2 ^ 8 + ck) * 2 ^ 8) by lia.
    rewrite (lor_high_low _ cv 8) by lia.
    lia.
  - apply EncodeLengths_overflow in E. lia.
Qed.

Lemma byte_of_value (code j : Z) :
  0 <= j -> Candidate.byte_of code j = (code / 2 ^ (8 * j)) mod 2 ^ 8.
Proof.
  intros Hj. unfold Candidate.byte_of.
  rewrite Z.shiftr_div_pow2 by lia.
  change 255 with (Z.ones 8). apply Z.land_ones. lia.
Qed.

(** C4: for four lengths that are each at most 255, [EncodeLengths]
    succeeds with a 32-bit code whose byte 3 (most significant) is the key
    length, byte 2 the value length, byte 1 the content key length and
    byte 0 the content value length; decoding the code gives the four
    lengths back, and the error-ignoring overload returns the same code. *)
Theorem EncodeLengths_decode_roundtrip (k v ck cv : Z) :
  byte_range k -> byte_range v -> byte_range ck -> byte_range cv ->
  exists code,
    Candidate.EncodeLengths k v ck cv = Some code
    /\ 0 <= code < 2 ^ 32
    /\ Candidate.byte_of code 3 = k
    /\ Candidate.byte_of code 2 = v
    /\ Candidate.byte_of code 1 = ck
    /\ Candidate.byte_of code 0 = cv
    /\ Candidate.DecodeLengths code = (k, v, ck, cv)
    /\ forall uninit,
         Candidate.EncodeLengths_unchecked uninit k v ck cv = code.
Proof.
  intros Hk Hv Hck Hcv.
  pose proof (EncodeLengths_value k v ck cv Hk Hv Hck Hcv) as E.
  unfold byte_range in *.
  set (code := k * 2 ^ 24 + v * 2 ^ 16 + ck * 2 ^ 8 + cv) in *.
  assert (B3 : Candidate.byte_of code 3 = k).
  { rewrite byte_of_value by lia. subst code. simpl Z.mul.
    change (2 ^ 24) with 16777216. change (2 ^ 16) with 65536.
    change (2 ^ 8) with 256. Z.div_mod_to_equations. lia. }
  assert (B2 : Candidate.byte_of code 2 = v).
  { rewrite byte_of_value by lia. subst code. simpl Z.mul.
    change (2 ^ 24) with 16777216. change (2 ^ 16) with 65536.
    change (2 ^ 8) with 256. Z.div_mod_to_equations. lia. }
  assert (B1 : Candidate.byte_of code 1 = ck).
  { rewrite byte_of_value by lia. subst code. simpl Z.mul.
    change (2 ^ 24) with 16777216. change (2 ^ 16) with 65536.
    change (2 ^ 8) with 256. Z.div_mod_to_equations. lia. }
  assert (B0 : Candidate.byte_of code 0 = cv).
  { rewrite byte_of_value by lia. subst code. simpl Z.mul.
    change (2 ^ 24) with 16777216. change (2 ^ 16) with 65536.
    change (2 ^ 8) with 256. change (2 ^ 0) with 1.
    Z.div_mod_to_equations. lia. }
  exists code. repeat split; try assumption; try (subst code; lia).
  - unfold Candidate.DecodeLengths. rewrite B3, B2, B1, B0. reflexivity.
  - intros uninit. unfold Candidate.EncodeLengths_unchecked.
    rewrite E. reflexivity.
Qed.

Lemma EncodeLengths_decode_roundtrip_witness :
  exists code,
    Candidate.EncodeLengths 9 3 9 3 = Some code
    /\ 0 <= code < 2 ^ 32
    /\ Candidate.byte_of code 3 = 9
    /\ Candidate.byte_of code 2 = 3
    /\ Candidate.byte_of code 1 = 9
    /\ Candidate.byte_of code 0 = 3
    /\ Candidate.DecodeLengths code = (9, 3, 9, 3)
    /\ forall uninit,
         Candidate.EncodeLengths_unchecked uninit 9 3 9 3 = code.
Proof.
  apply (EncodeLengths_decode_roundtrip 9 3 9 3);
    unfold byte_range; lia.
Defined.

(** C5: [PushBackInnerSegmentBoundary] returns [false] exactly when one of
    the four lengths exceeds 255; when it returns [false] the candidate,
    its [inner_segment_boundary] included, is the one before the call; when
    it returns [true] the sequence has grown by exactly one element at its
    end, the packed code of the four lengths, and nothing else of the
    candidate has changed. *)
Theorem PushBackInnerSegmentBoundary_overflow (c : Candidate.Candidate)
    (k v ck cv : Z) :
  let r := Candidate.PushBackInnerSegmentBoundary c k v ck cv in
  (r.1 = false <-> 255 < k \/ 255 < v \/ 255 < ck \/ 255 < cv)
  /\ (r.1 = false -> r.2 = c)
  /\ (r.1 = true ->
      exists code,
        Candidate.EncodeLengths k v ck cv = Some code
        /\ Candidate.inner_segment_boundary r.2
           = Candidate.inner_segment_boundary c ++ [code]
        /\ Candidate.set_inner_segment_boundary
             (Candidate.inner_segment_boundary c) r.2 = c).
Proof.
  intros r. subst r. unfold Candidate.PushBackInnerSegmentBoundary.
  pose proof (EncodeLengths_overflow k v ck cv) as Hov.
  destruct (Candidate.EncodeLengths k v ck cv) as [code|]; simpl.
  - split; [|split].
    + split; [discriminate|]. intros H. apply Hov in H. discriminate.
    + discriminate.
    + intros _. exists code. split; [reflexivity|].
      split; [reflexivity|]. destruct c; reflexivity.
  - split; [|split].
    + split; [intros _; apply Hov; reflexivity | reflexivity].
    + reflexivity.
    + discriminate.
Qed.

Lemma PushBackInnerSegmentBoundary_overflow_witness :
  (Candidate.PushBackInnerSegmentBoundary Candidate.default 256 1 1 1).1
  = false
  /\ (Candidate.PushBackInnerSegmentBoundary Candidate.default 256 1 1 1).2
     = Candidate.default
  /\ exists code,
       Candidate.EncodeLengths 9 3 9 3 = Some code
       /\ Candidate.inner_segment_boundary
            (Candidate.PushBackInnerSegmentBoundary
               Candidate.default 9 3 9 3).2
          = [code].
Proof.
  pose proof (PushBackInnerSegmentBoundary_overflow
                Candidate.default 256 1 1 1) as [Hiff [Hsame _]].
  pose proof (PushBackInnerSegmentBoundary_overflow
                Candidate.default 9 3 9 3) as [_ [_ Hpush]].
  assert (Hf : (Candidate.PushBackInnerSegmentBoundary
                  Candidate.default 256 1 1 1).1 = false)
    by (apply Hiff; lia).
  split; [exact Hf|]. split; [exact (Hsame Hf)|].
  destruct (Hpush eq_refl) as [code [He [Hb _]]].
  exists code. split; [exact He | exact Hb].
Defined.

(** ** Segment: signed indices *)

Lemma is_valid_index_nonneg (s : Segment.Segment) (i : Z) :
  int_range i -> 0 <= i ->
  Segment.is_valid_index s i = (i <? Segment.candidates_size s).
Proof.
  intros Hr Hi. unfold Segment.is_valid_index, Segment.candidates_size.
  destruct (Z.ltb_spec i 0) as [|_]; [lia|].
  now rewrite to_size_t_int.
Qed.

Lemma is_valid_index_neg (s : Segment.Segment) (i : Z) :
  int_range i -> i < 0 ->
  Segment.is_valid_index s i
  = (- i - 1 <? Segment.meta_candidates_size s).
Proof.
  intros Hr Hi.
  unfold Segment.is_valid_index, Segment.meta_candidates_size.
  destruct (Z.ltb_spec i 0) as [_|]; [|lia].
  rewrite int_meta_index by assumption.
  rewrite to_size_t_id
    by (unfold int_range, int_min, int_max in Hr; lia).
  reflexivity.
Qed.

(** C6: for every [int] [i], [is_valid_index(i)] is [true] exactly when
    [i >= 0] and [i < candidates_size()], or [i < 0] and
    [-i - 1 < meta_candidates_size()]. *)
Theorem is_valid_index_iff (s : Segment.Segment) (i : Z) :
  int_range i ->
  Segment.is_valid_index s i = true
  <-> (0 <= i /\ i < Segment.candidates_size s)
      \/ (i < 0 /\ - i - 1 < Segment.meta_candidates_size s).
Proof.
  intros Hr. destruct (Z.lt_ge_cases i 0) as [Hneg | Hpos].
  - rewrite is_valid_index_neg by assumption. rewrite Z.ltb_lt. lia.
  - rewrite is_valid_index_nonneg by assumption. rewrite Z.ltb_lt. lia.
Qed.

(** ** Candidate: functional parts *)

Lemma substring_all (s : string) : String.substring 0 (String.length s) s = s.
Proof. induction s as [|a s IH]; simpl; [reflexivity | now rewrite IH]. Qed.

Lemma substring_suffix_past (n : nat) (s : string) :
  String.substring n (String.length s - n) s = Candidate.suffix_past n s.
Proof.
  revert s. induction n as [|n IH]; intros s.
  - rewrite Nat.sub_0_r. apply substring_all.
  - destruct s as [|a s]; simpl; [reflexivity | apply IH].
Qed.

Lemma suffix_past_length (n : nat) (s : string) :
  String.length (Candidate.suffix_past n s) = (String.length s - n)%nat.
Proof.
  revert s. induction n as [|n IH]; intros s; simpl.
  - now rewrite Nat.sub_0_r.
  - destruct s as [|a s]; simpl; [reflexivity | apply IH].
Qed.

Lemma suffix_past_short (n : nat) (s : string) :
  (String.length s <= n)%nat -> Candidate.suffix_past n s = EmptyString.
Proof.
  revert s. induction n as [|n IH]; intros s Hle.
  - destruct s; simpl in *; [reflexivity | lia].
  - destruct s as [|a s]; simpl in *; [reflexivity | apply IH; lia].
Qed.

(** What is cut off in front of the suffix is a prefix of [s] of [n] bytes,
    or all of [s] when it is shorter. *)
Lemma suffix_past_split (n : nat) (s : string) :
  exists p, s = (p +:+ Candidate.suffix_past n s)%string
            /\ String.length p = Nat.min n (String.length s).
Proof.
  revert s. induction n as [|n IH]; intros s.
  - exists EmptyString. split; reflexivity.
  - destruct s as [|a s].
    + exists EmptyString. split; reflexivity.
    + destruct (IH s) as [p [Hp Hl]]. exists (String a p). simpl.
      split; [|now rewrite Hl].
      change (String a s = String a (p +:+ Candidate.suffix_past n s)).
      f_equal. exact Hp.
Qed.

(** The view taken by [functional_key] and [functional_value]: the bytes of
    [s] past the first [length t]. *)
Lemma functional_view (s t : string) :
  (if Candidate.ssize s <=? Candidate.ssize t
   then EmptyString
   else Candidate.string_view s (Candidate.ssize t)
          (Candidate.ssize s - Candidate.ssize t))
  = Candidate.suffix_past (String.length t) s.
Proof.
  unfold Candidate.ssize, Candidate.string_view.
  destruct (Z.leb_spec (Z.of_nat (String.length s))
                       (Z.of_nat (String.length t))) as [Hle | Hgt].
  - symmetry. apply suffix_past_short. lia.
  - rewrite Nat2Z.id.
    replace (Z.to_nat (Z.of_nat (String.length s)
                       - Z.of_nat (String.length t)))
      with (String.length s - String.length t)%nat by lia.
    apply substring_suffix_past.
Qed.

(** C7: [functional_key()] is the suffix of [key] past the first
    [content_key.size()] bytes, its size is
    [max(0, |key| - |content_key|)], and it is the empty view when
    [content_key.size() >= key.size()]; [functional_value()] is the same
    on [value] and [content_value].  Both are total: no outcome other than
    a returned view exists. *)
Theorem functional_parts_are_suffixes (c : Candidate.Candidate) :
  (Candidate.functional_key c
   = Candidate.suffix_past (String.length (Candidate.content_key c))
                           (Candidate.key c)
   /\ Candidate.ssize (Candidate.functional_key c)
      = Z.max 0 (Candidate.ssize (Candidate.key c)
                 - Candidate.ssize (Candidate.content_key c))
   /\ (Candidate.ssize (Candidate.content_key c)
       >= Candidate.ssize (Candidate.key c) ->
       Candidate.functional_key c = EmptyString))
  /\ (Candidate.functional_value c
      = Candidate.suffix_past (String.length (Candidate.content_value c))
                              (Candidate.value c)
      /\ Candidate.ssize (Candidate.functional_value c)
         = Z.max 0 (Candidate.ssize (Candidate.value c)
                    - Candidate.ssize (Candidate.content_value c))
      /\ (Candidate.ssize (Candidate.content_value c)
          >= Candidate.ssize (Candidate.value c) ->
          Candidate.functional_value c = EmptyString)).
Proof.
  assert (Hk := functional_view (Candidate.key c) (Candidate.content_key c)).
  assert (Hv := functional_view (Candidate.value c)
                  (Candidate.content_value c)).
  fold (Candidate.functional_key c) in Hk.
  fold (Candidate.functional_value c) in Hv.
  rewrite Hk, Hv. unfold Candidate.ssize.
  rewrite !suffix_past_length.
  repeat split; try lia.
  - intros Hge. apply suffix_past_short. lia.
  - intros Hge. apply suffix_past_short. lia.
Qed.

Lemma functional_parts_are_suffixes_witness :
  Candidate.functional_key Scenario.tabeta = "ta"%string
  /\ Candidate.functional_value Scenario.tabeta = "en"%string
  /\ Candidate.functional_key (Scenario.cand "kana" "KANA") = EmptyString.
Proof.
  destruct (functional_parts_are_suffixes Scenario.tabeta)
    as [[Hk _] [Hv _]].
  destruct (functional_parts_are_suffixes (Scenario.cand "kana" "KANA"))
    as [[_ [_ He]] _].
  split; [rewrite Hk; reflexivity|].
  split; [rewrite Hv; reflexivity|].
  apply He. vm_compute. discriminate.
Defined.

Lemma is_valid_index_iff_witness :
  (Segment.is_valid_index Scenario.three_two (-2) = true
   <-> (0 <= -2 /\ -2 < Segment.candidates_size Scenario.three_two)
       \/ (-2 < 0
           /\ - (-2) - 1 < Segment.meta_candidates_size Scenario.three_two))
  /\ (Segment.is_valid_index Scenario.three_two 3 = true
      <-> (0 <= 3 /\ 3 < Segment.candidates_size Scenario.three_two)
          \/ (3 < 0
              /\ - 3 - 1 < Segment.meta_candidates_size Scenario.three_two)).
Proof.
  split.
  - apply (is_valid_index_iff Scenario.three_two (-2)).
    unfold int_range, int_min, int_max. lia.
  - apply (is_valid_index_iff Scenario.three_two 3).
    unfold int_range, int_min, int_max. lia.
Defined.

(** ** Indexing and checks *)

Lemma at_lookup {A : Type} (l : list A) (i : Z) (x : A) :
  0 <= i -> l !! Z.to_nat i = Some x -> at_ l i = Returns x.
Proof.
  intros Hi Hx. unfold at_.
  destruct (Z.ltb_spec i 0); [lia|]. now rewrite Hx.
Qed.

Lemma at_in_range {A : Type} (l : list A) (i : Z) :
  0 <= i < size l ->
  exists x, l !! Z.to_nat i = Some x /\ at_ l i = Returns x.
Proof.
  unfold size. intros Hi.
  destruct (lookup_lt_is_Some_2 l (Z.to_nat i)) as [x Hx]; [lia|].
  exists x. split; [assumption | apply at_lookup; [lia | assumption]].
Qed.

Lemma at_not_Aborts {A : Type} (l : list A) (i : Z) : at_ l i <> Aborts.
Proof.
  unfold at_. destruct (i <? 0); [discriminate|].
  destruct (l !! Z.to_nat i); discriminate.
Qed.

Lemma DCHECK_true (ndebug : bool) : DCHECK ndebug true = Returns tt.
Proof. destruct ndebug; reflexivity. Qed.

Lemma deref_live {A : Type} (h : gmap addr A) (p : addr) (x : A) :
  h !! p = Some x -> deref h p = Returns x.
Proof. intros Hx. unfold deref. now rewrite Hx. Qed.

Lemma pointers_live_lookup (s : Segment.Segment) (k : nat) (p : addr) :
  Segment.pointers_live s -> Segment.candidates_ s !! k = Some p ->
  exists c, Segment.pool_ s !! p = Some c.
Proof.
  unfold Segment.pointers_live. rewrite Forall_lookup.
  intros Hall Hp. exact (Hall k p Hp).
Qed.

(** ** Segment: access by signed index *)

(** What [candidate(i)] does at a valid index [i >= 0]: it returns a
    reference to the object [candidates_[i]] points to, after a write to
    that object. *)
Lemma candidate_nonneg (ndebug : bool) (s : Segment.Segment) (i : Z)
    (p : addr) (c : Candidate.Candidate) :
  int_range i -> 0 <= i ->
  Segment.candidates_ s !! Z.to_nat i = Some p ->
  Segment.pool_ s !! p = Some c ->
  Segment.candidate ndebug s i
  = Returns (Segment.Pooled p,
             Segment.set_pool_
               (<[p := Segment.assign_literal c Segment.literal_750]>
                  (Segment.pool_ s)) s).
Proof.
  intros Hr Hi Hp Hc. unfold Segment.candidate.
  destruct (Z.ltb_spec i 0) as [|_]; [lia|].
  rewrite to_size_t_int by assumption.
  assert (Hlt : i < size (Segment.candidates_ s)).
  { apply lookup_lt_Some in Hp. unfold size. lia. }
  apply Z.ltb_lt in Hlt. rewrite Hlt, DCHECK_true. simpl.
  rewrite (at_lookup _ i p Hi Hp). simpl.
  rewrite (deref_live _ p c Hc). simpl.
  unfold deref. rewrite lookup_insert_eq. reflexivity.
Qed.

(** C1: at a valid signed index [i], [candidate(i)] for [i >= 0] returns a
    reference to the [i]-th element of the candidate list (the object that
    [candidates_[i]] points to, in a list of pointers that the call leaves
    as it is), and for [i < 0] a reference to the meta candidate at
    position [-i - 1]; [mutable_candidate(i)] returns the same
    references. *)
Theorem candidate_signed_index (ndebug : bool) (s : Segment.Segment)
    (i : Z) :
  int_range i -> Segment.pointers_live s ->
  Segment.is_valid_index s i = true ->
  (0 <= i ->
   exists p s',
     Segment.candidate ndebug s i = Returns (Segment.Pooled p, s')
     /\ Segment.mutable_candidate ndebug s i = Returns (Segment.Pooled p)
     /\ Segment.candidates_ s !! Z.to_nat i = Some p
     /\ Segment.candidates_ s' = Segment.candidates_ s
     /\ is_Some (Segment.read s' (Segment.Pooled p)))
  /\ (i < 0 ->
      exists c,
        Segment.candidate ndebug s i
        = Returns (Segment.Meta (- i - 1), s)
        /\ Segment.mutable_candidate ndebug s i
           = Returns (Segment.Meta (- i - 1))
        /\ Segment.meta_candidates_ s !! Z.to_nat (- i - 1) = Some c
        /\ Segment.read s (Segment.Meta (- i - 1)) = Some c).
Proof.
  intros Hr Hlive Hvalid. split.
  - intros Hi. rewrite is_valid_index_nonneg in Hvalid by assumption.
    apply Z.ltb_lt in Hvalid as Hlt.
    unfold Segment.candidates_size in Hlt.
    destruct (at_in_range (Segment.candidates_ s) i) as [p [Hp Hat]];
      [lia|].
    destruct (pointers_live_lookup s _ p Hlive Hp) as [c Hc].
    exists p. eexists. split; [|split; [|split; [|split]]].
    + apply (candidate_nonneg ndebug s i p c); assumption.
    + unfold Segment.mutable_candidate, DCHECK_LT.
      destruct (Z.ltb_spec i 0) as [|_]; [lia|].
      rewrite to_size_t_int by assumption.
      apply Z.ltb_lt in Hlt. rewrite Hlt, DCHECK_true. simpl.
      rewrite Hat. reflexivity.
    + assumption.
    + reflexivity.
    + simpl. rewrite lookup_insert_eq. eauto.
  - intros Hi. rewrite is_valid_index_neg in Hvalid by assumption.
    apply Z.ltb_lt in Hvalid as Hlt.
    unfold Segment.meta_candidates_size in Hlt.
    assert (Hidx : to_size_t (int_sub (int_neg i) 1) = - i - 1).
    { rewrite int_meta_index by assumption. apply to_size_t_id.
      unfold int_range, int_min, int_max in Hr. lia. }
    destruct (at_in_range (Segment.meta_candidates_ s) (- i - 1))
      as [c [Hc Hat]]; [lia|].
    exists c. split; [|split; [|split]].
    + unfold Segment.candidate, Segment.meta_candidate, DCHECK_LT.
      destruct (Z.ltb_spec i 0) as [_|]; [|lia].
      rewrite Hidx. apply Z.ltb_lt in Hlt. rewrite Hlt, DCHECK_true.
      simpl. rewrite Hat. reflexivity.
    + unfold Segment.mutable_candidate, DCHECK_LT.
      destruct (Z.ltb_spec i 0) as [_|]; [|lia].
      simpl. rewrite Hidx. apply Z.ltb_lt in Hlt.
      rewrite Hlt, DCHECK_true. simpl. rewrite Hat. reflexivity.
    + assumption.
    + simpl. destruct (Z.ltb_spec (- i - 1) 0); [lia | assumption].
Qed.

Lemma three_two_pointers_live : Segment.pointers_live Scenario.three_two.
Proof.
  unfold Segment.pointers_live. simpl.
  repeat constructor; eexists; reflexivity.
Defined.

Lemma candidate_signed_index_witness :
  (exists p s',
     Segment.candidate false Scenario.three_two 2
     = Returns (Segment.Pooled p, s')
     /\ Segment.candidates_ Scenario.three_two !! 2%nat = Some p)
  /\ (exists c,
        Segment.candidate false Scenario.three_two (-2)
        = Returns (Segment.Meta 1, Scenario.three_two)
        /\ Segment.read Scenario.three_two (Segment.Meta 1) = Some c).
Proof.
  assert (Hr : forall i, -5 <= i <= 5 -> int_range i)
    by (unfold int_range, int_min, int_max; lia).
  destruct (candidate_signed_index false Scenario.three_two 2
              (Hr 2 ltac:(lia)) three_two_pointers_live eq_refl)
    as [Hpos _].
  destruct (candidate_signed_index false Scenario.three_two (-2)
              (Hr (-2) ltac:(lia)) three_two_pointers_live eq_refl)
    as [_ Hneg].
  split.
  - destruct (Hpos ltac:(lia)) as [p [s' [Hc [_ [Hp _]]]]].
    exists p, s'. split; assumption.
  - destruct (Hneg ltac:(lia)) as [c [Hc [_ [_ Hread]]]].
    exists c. split; assumption.
Defined.

(** After [candidate(i)] at a valid [i >= 0], the [value] of the [i]-th
    candidate is the literal of segments.h:750, whatever it was before. *)
Lemma candidate_leaves_literal (ndebug : bool) (s : Segment.Segment)
    (i : Z) (p : addr) (c : Candidate.Candidate) :
  int_range i -> 0 <= i ->
  Segment.candidates_ s !! Z.to_nat i = Some p ->
  Segment.pool_ s !! p = Some c ->
  exists s',
    Segment.candidate ndebug s i = Returns (Segment.Pooled p, s')
    /\ Candidate.value <$> Segment.read s' (Segment.Pooled p)
       = Some Segment.literal_750.
Proof.
  intros Hr Hi Hp Hc. eexists. split.
  - apply (candidate_nonneg ndebug s i p c); assumption.
  - simpl. rewrite lookup_insert_eq. reflexivity.
Qed.

(** C2, at a segment whose first candidate has the value "first": the
    const getter [candidate(0)] returns that candidate with its [value]
    overwritten by the literal of segments.h:750, so the segment after the
    call is not the segment before it. *)
Theorem candidate_getter_overwrites_value (ndebug : bool) :
  exists s',
    Segment.candidate ndebug Scenario.three_two 0
    = Returns (Segment.Pooled 1%positive, s')
    /\ Candidate.value
         <$> Segment.read Scenario.three_two (Segment.Pooled 1%positive)
       = Some "first"%string
    /\ Candidate.value <$> Segment.read s' (Segment.Pooled 1%positive)
       = Some Segment.literal_750
    /\ s' <> Scenario.three_two.
Proof.
  eexists. split; [|split; [|split]].
  - apply (candidate_nonneg ndebug Scenario.three_two 0 1%positive
             (Scenario.cand "kana" "first")).
    + unfold int_range, int_min, int_max. lia.
    + lia.
    + reflexivity.
    + reflexivity.
  - reflexivity.
  - simpl. rewrite lookup_insert_eq. reflexivity.
  - intros Heq.
    apply (f_equal (fun s => Candidate.value
                               <$> Segment.read s (Segment.Pooled 1%positive)))
      in Heq.
    vm_compute in Heq. discriminate.
Qed.

(** ** Ranges: drop, take, take_last *)

Lemma CHECK_GE_Aborts (a b : Z) : CHECK_GE a b = Aborts <-> a < b.
Proof.
  unfold CHECK_GE, CHECK. destruct (Z.leb_spec b a); split;
    intros Hx; try discriminate; try reflexivity; lia.
Qed.

Lemma CHECK_GE_pass (a b : Z) : b <= a -> CHECK_GE a b = Returns tt.
Proof.
  intros Hle. unfold CHECK_GE, CHECK.
  destruct (Z.leb_spec b a); [reflexivity | lia].
Qed.

Lemma CHECK_LT_pass (a b : Z) : a < b -> CHECK_LT a b = Returns tt.
Proof.
  intros Hlt. unfold CHECK_LT, CHECK.
  destruct (Z.ltb_spec a b); [reflexivity | lia].
Qed.

Lemma Range_drop_nonneg (r : Segments.Range) (n : Z) :
  0 <= n ->
  Segments.Range_drop r n
  = Returns (Segments.mkRange
               (if n <? Segments.Range_size r
                then Segments.begin_ r + n else Segments.end_ r)
               (Segments.end_ r)).
Proof.
  intros Hn. unfold Segments.Range_drop.
  rewrite CHECK_GE_pass by assumption. reflexivity.
Qed.

Lemma Range_take_nonneg (r : Segments.Range) (n : Z) :
  0 <= n ->
  Segments.Range_take r n
  = Returns (Segments.mkRange
               (Segments.begin_ r)
               (if n <? Segments.Range_size r
                then Segments.begin_ r + n else Segments.end_ r)).
Proof.
  intros Hn. unfold Segments.Range_take.
  rewrite CHECK_GE_pass by assumption. reflexivity.
Qed.

(** C10: for a count [n >= 0], [drop], [take] and [take_last] return a
    range and never abort; [drop(n)] with [n >= size()] is the empty range
    at [end_], [take(n)] with [n >= size()] is the range itself, and
    [take_last(n)] is [drop(max(0, size() - n))].  Each of the three aborts
    exactly when the count is negative. *)
Theorem Range_drop_take_clamp (r : Segments.Range) (n : Z) :
  (0 <= n ->
   (exists r', Segments.Range_drop r n = Returns r')
   /\ (exists r', Segments.Range_take r n = Returns r')
   /\ (exists r', Segments.Range_take_last r n = Returns r')
   /\ (Segments.Range_size r <= n ->
       Segments.Range_drop r n
       = Returns (Segments.mkRange (Segments.end_ r) (Segments.end_ r))
       /\ Segments.Range_take r n = Returns r)
   /\ Segments.Range_take_last r n
      = Segments.Range_drop r (Z.max 0 (Segments.Range_size r - n)))
  /\ (Segments.Range_drop r n = Aborts <-> n < 0)
  /\ (Segments.Range_take r n = Aborts <-> n < 0)
  /\ (Segments.Range_take_last r n = Aborts <-> n < 0).
Proof.
  split; [|split; [|split]].
  - intros Hn.
    assert (Hlast :
      Segments.Range_take_last r n
      = Segments.Range_drop r (Z.max 0 (Segments.Range_size r - n))).
    { unfold Segments.Range_take_last.
      rewrite CHECK_GE_pass by assumption. reflexivity. }
    split; [|split; [|split; [|split]]].
    + rewrite Range_drop_nonneg by assumption. eauto.
    + rewrite Range_take_nonneg by assumption. eauto.
    + rewrite Hlast, Range_drop_nonneg by lia. eauto.
    + intros Hge.
      rewrite Range_drop_nonneg, Range_take_nonneg by assumption.
      destruct (Z.ltb_spec n (Segments.Range_size r)); [lia|].
      split; [reflexivity | destruct r; reflexivity].
    + exact Hlast.
  - destruct (Z.lt_ge_cases n 0) as [Hn | Hn].
    + split; [intros _; assumption | intros _].
      unfold Segments.Range_drop.
      rewrite (proj2 (CHECK_GE_Aborts n 0) Hn). reflexivity.
    + rewrite Range_drop_nonneg by assumption.
      split; [discriminate | lia].
  - destruct (Z.lt_ge_cases n 0) as [Hn | Hn].
    + split; [intros _; assumption | intros _].
      unfold Segments.Range_take.
      rewrite (proj2 (CHECK_GE_Aborts n 0) Hn). reflexivity.
    + rewrite Range_take_nonneg by assumption.
      split; [discriminate | lia].
  - destruct (Z.lt_ge_cases n 0) as [Hn | Hn].
    + split; [intros _; assumption | intros _].
      unfold Segments.Range_take_last.
      rewrite (proj2 (CHECK_GE_Aborts n 0) Hn). reflexivity.
    + unfold Segments.Range_take_last.
      rewrite CHECK_GE_pass by assumption. simpl.
      rewrite Range_drop_nonneg by lia.
      split; [discriminate | lia].
Qed.

Lemma Range_drop_take_clamp_witness :
  Segments.Range_drop (Segments.mkRange 1 4) 7
  = Returns (Segments.mkRange 4 4)
  /\ Segments.Range_take (Segments.mkRange 1 4) 7
     = Returns (Segments.mkRange 1 4)
  /\ Segments.Range_take_last (Segments.mkRange 1 4) 7
     = Segments.Range_drop (Segments.mkRange 1 4) 0
  /\ Segments.Range_drop (Segments.mkRange 1 4) (-1) = Aborts.
Proof.
  destruct (Range_drop_take_clamp (Segments.mkRange 1 4) 7)
    as [Hpos _].
  destruct (Range_drop_take_clamp (Segments.mkRange 1 4) (-1))
    as [_ [Hneg _]].
  destruct (Hpos ltac:(lia)) as [_ [_ [_ [Hclamp Hlast]]]].
  destruct (Hclamp ltac:(vm_compute; discriminate)) as [Hd Ht].
  split; [exact Hd|]. split; [exact Ht|]. split; [exact Hlast|].
  apply Hneg. lia.
Defined.

(** ** Segments: the history prefix *)

Lemma history_scan_spec (h : gmap addr Segment.Segment) (l : list addr) :
  Forall (fun p => is_Some (h !! p)) l ->
  exists n : nat,
    Segments.history_scan h l = Returns (Z.of_nat n)
    /\ (n <= length l)%nat
    /\ (forall k p, (k < n)%nat -> l !! k = Some p ->
        exists s, h !! p = Some s
                  /\ Segments.is_history_type (Segment.segment_type s)
                     = true)
    /\ (forall p s, l !! n = Some p -> h !! p = Some s ->
        Segments.is_history_type (Segment.segment_type s) = false).
Proof.
  induction l as [|p l IH]; intros Hlive.
  - exists 0%nat. simpl. repeat split; try lia; intros; discriminate.
  - apply Forall_cons in Hlive as [[s Hs] Hlive].
    destruct (IH Hlive) as [n [Hscan [Hlen [Hpre Hstop]]]].
    simpl. rewrite (deref_live _ _ _ Hs). simpl.
    destruct (Segments.is_history_type (Segment.segment_type s)) eqn:Ht.
    + exists (S n). rewrite Hscan. simpl.
      split; [f_equal; lia|]. split; [lia|]. split.
      * intros [|k] q Hk Hq; simpl in Hq.
        -- injection Hq as <-. eauto.
        -- apply (Hpre k q); [lia | assumption].
      * intros q t Hq Hqt. simpl in Hq. exact (Hstop q t Hq Hqt).
    + exists 0%nat. split; [reflexivity|]. split; [lia|]. split.
      * intros k q Hk. lia.
      * intros q t Hq Hqt. simpl in Hq. injection Hq as <-.
        rewrite Hs in Hqt. injection Hqt as <-. exact Ht.
Qed.

Section SegmentsFacts.

Context {Lattice : Type}.
Implicit Type ss : Segments.Segments Lattice.

Lemma well_formed_lookup ss (k : nat) (p : addr) :
  Segments.well_formed ss -> Segments.segments_ ss !! k = Some p ->
  exists s, Segments.pool_ ss !! p = Some s.
Proof.
  intros [Hlive _]. rewrite Forall_lookup in Hlive.
  intros Hp. exact (Hlive k p Hp).
Qed.

(** In a well-formed container [segments_[i]] at a position inside the
    list is a pointer to a segment, and [segment(i)] returns a reference
    to it. *)
Lemma segment_in_range ss (i : Z) :
  Segments.well_formed ss -> 0 <= i < Segments.segments_size ss ->
  exists p,
    Segments.segments_ ss !! Z.to_nat i = Some p
    /\ at_ (Segments.segments_ ss) i = Returns p
    /\ is_Some (Segments.pool_ ss !! p)
    /\ Segments.segment ss i = Returns p
    /\ Segments.Iterator_deref ss i = Returns p.
Proof.
  intros Hwf Hi.
  destruct (at_in_range (Segments.segments_ ss) i Hi) as [p [Hp Hat]].
  destruct (well_formed_lookup ss _ p Hwf Hp) as [s Hs].
  exists p. split; [assumption|]. split; [assumption|].
  split; [eauto|].
  unfold Segments.segment, Segments.Iterator_deref.
  rewrite Hat. simpl. rewrite (deref_live _ _ _ Hs). split; reflexivity.
Qed.

(** The scan of a well-formed container stops after a number [n] of
    segments such that the first [n] have a history type and the next, if
    there is one, has not. *)
Lemma history_segments_size_spec ss :
  Segments.well_formed ss ->
  exists n : nat,
    Segments.history_segments_size ss = Returns (Z.of_nat n)
    /\ Segments.history_prefix ss n
    /\ ~ Segments.history_at ss n.
Proof.
  intros Hwf. destruct Hwf as [Hlive Hsz].
  destruct (history_scan_spec _ _ Hlive) as [n [Hscan [Hlen [Hpre Hstop]]]].
  exists n. split; [exact Hscan|]. split.
  - split; [exact Hlen|]. intros k Hk.
    destruct (lookup_lt_is_Some_2 (Segments.segments_ ss) k) as [p Hp];
      [lia|].
    destruct (Hpre k p Hk Hp) as [s [Hs Ht]].
    exists p, s. auto.
  - intros [p [s [Hp [Hs Ht]]]].
    rewrite (Hstop p s Hp Hs) in Ht. discriminate.
Qed.

(** C3: in a well-formed container [history_segments_size()] is the
    length of the longest prefix of the segment list whose segments all
    have type HISTORY or SUBMITTED: that many segments at the front have
    such a type, and no longer prefix has; [conversion_segments_size()] is
    [segments_size()] less that number, and for every [j] below it
    [conversion_segment(j)] is [segment(history_segments_size() + j)]. *)
Theorem history_partition_derived ss :
  Segments.well_formed ss ->
  exists n : nat,
    Segments.history_segments_size ss = Returns (Z.of_nat n)
    /\ Segments.history_prefix ss n
    /\ (forall m, Segments.history_prefix ss m -> (m <= n)%nat)
    /\ Segments.conversion_segments_size ss
       = Returns (Segments.segments_size ss - Z.of_nat n)
    /\ forall j,
         0 <= j < Segments.segments_size ss - Z.of_nat n ->
         exists p,
           Segments.conversion_segment ss j = Returns p
           /\ Segments.segment ss (Z.of_nat n + j) = Returns p.
Proof.
  intros Hwf.
  destruct (history_segments_size_spec ss Hwf) as [n [Hn [Hpre Hstop]]].
  assert (Hsz : size_t_range (Segments.segments_size ss))
    by (destruct Hwf; assumption).
  assert (Hlen : Z.of_nat n <= Segments.segments_size ss).
  { destruct Hpre as [Hle _]. unfold Segments.segments_size, size. lia. }
  unfold size_t_range in Hsz.
  exists n. split; [exact Hn|]. split; [exact Hpre|]. split; [|split].
  - intros m [_ Hm]. destruct (Nat.le_gt_cases m n) as [|Hgt];
      [assumption|]. exfalso. apply Hstop. apply Hm. lia.
  - unfold Segments.conversion_segments_size. rewrite Hn. simpl.
    rewrite to_size_t_id by lia. reflexivity.
  - intros j Hj.
    destruct (segment_in_range ss (Z.of_nat n + j) Hwf)
      as [p [Hp [Hat [[s Hs] [Hseg _]]]]]; [lia|].
    exists p. split; [|exact Hseg].
    unfold Segments.conversion_segment. rewrite Hn. simpl.
    rewrite to_size_t_id by lia.
    replace (j + Z.of_nat n) with (Z.of_nat n + j) by lia.
    rewrite Hat. simpl. rewrite (deref_live _ _ _ Hs). reflexivity.
Qed.

End SegmentsFacts.

(** ** Ranges: checked access *)

Lemma deref_not_Aborts {A : Type} (h : gmap addr A) (p : addr) :
  deref h p <> Aborts.
Proof. unfold deref. destruct (h !! p); discriminate. Qed.

Section RangeFacts.

Context {Lattice : Type}.
Implicit Type ss : Segments.Segments Lattice.

Lemma Iterator_deref_not_Aborts ss (it : Z) :
  Segments.Iterator_deref ss it <> Aborts.
Proof.
  unfold Segments.Iterator_deref.
  destruct (at_ (Segments.segments_ ss) it) as [p| |] eqn:Ha; simpl.
  - destruct (deref (Segments.pool_ ss) p) eqn:Hd; simpl;
      try discriminate.
    intros _. exact (deref_not_Aborts _ _ Hd).
  - intros _. exact (at_not_Aborts _ _ Ha).
  - discriminate.
Qed.

(** [operator[]] aborts exactly on an index outside [0 <= index < size()];
    no other part of it can abort. *)
Lemma Range_at_Aborts ss (r : Segments.Range) (i : Z) :
  Segments.Range_at ss r i = Aborts
  <-> ~ (0 <= i < Segments.Range_size r).
Proof.
  unfold Segments.Range_at.
  destruct (Z.lt_ge_cases i 0) as [Hneg | Hpos].
  - rewrite (proj2 (CHECK_GE_Aborts i 0) Hneg). simpl.
    split; [lia | reflexivity].
  - rewrite CHECK_GE_pass by assumption. simpl.
    destruct (Z.lt_ge_cases i (Segments.Range_size r)) as [Hlt | Hge].
    + rewrite CHECK_LT_pass by assumption. simpl.
      split; [|lia]. intros Hx.
      exfalso. exact (Iterator_deref_not_Aborts ss _ Hx).
    + unfold CHECK_LT, CHECK.
      destruct (Z.ltb_spec i (Segments.Range_size r)); [lia|]. simpl.
      split; [lia | reflexivity].
Qed.

Lemma Range_front_Aborts ss (r : Segments.Range) :
  Segments.Range_front ss r = Aborts <-> Segments.Range_empty r = true.
Proof.
  unfold Segments.Range_front.
  destruct (Segments.Range_empty r); simpl.
  - split; reflexivity.
  - split; [|discriminate]. intros Hx.
    exfalso. exact (Iterator_deref_not_Aborts ss _ Hx).
Qed.

Lemma Range_back_Aborts ss (r : Segments.Range) :
  Segments.Range_back ss r = Aborts <-> Segments.Range_empty r = true.
Proof.
  unfold Segments.Range_back.
  destruct (Segments.Range_empty r); simpl.
  - split; reflexivity.
  - split; [|discriminate]. intros Hx.
    exfalso. exact (Iterator_deref_not_Aborts ss _ Hx).
Qed.

(** The element at position [k] of a range inside the list is the pointer
    at position [begin_ + k] of the list. *)
Lemma Range_elements_lookup ss (r : Segments.Range) (k : Z) :
  Segments.Range_within ss r -> 0 <= k < Segments.Range_size r ->
  Segments.Range_elements ss r !! Z.to_nat k
  = Segments.segments_ ss !! Z.to_nat (Segments.begin_ r + k).
Proof.
  unfold Segments.Range_within, Segments.Range_elements,
    Segments.Range_size.
  intros [Hb He] Hk.
  rewrite lookup_take_lt by lia. rewrite lookup_drop.
  f_equal. lia.
Qed.

Lemma Range_at_within ss (r : Segments.Range) (i : Z) :
  Segments.well_formed ss -> Segments.Range_within ss r ->
  0 <= i < Segments.Range_size r ->
  exists p,
    Segments.Range_at ss r i = Returns p
    /\ Segments.Range_elements ss r !! Z.to_nat i = Some p.
Proof.
  intros Hwf Hin Hi.
  assert (Hpos : 0 <= Segments.begin_ r + i < Segments.segments_size ss).
  { unfold Segments.Range_within, Segments.Range_size,
      Segments.segments_size in *. lia. }
  destruct (segment_in_range ss _ Hwf Hpos) as [p [Hp [_ [_ [_ Hd]]]]].
  exists p. split.
  - unfold Segments.Range_at.
    rewrite CHECK_GE_pass, CHECK_LT_pass by lia. simpl. exact Hd.
  - rewrite Range_elements_lookup by assumption. exact Hp.
Qed.

Lemma Range_within_returned ss (r : Segments.Range) :
  Segments.well_formed ss -> Segments.Range_returned ss r ->
  Segments.Range_within ss r.
Proof.
  intros Hwf Hr.
  destruct (history_segments_size_spec ss Hwf) as [n [Hn [[Hle _] _]]].
  unfold Segments.Range_within.
  destruct Hr as [-> | [Hr | Hr]].
  - unfold Segments.all, Segments.make_range, Segments.begin,
      Segments.end', size. simpl. lia.
  - unfold Segments.history_segments in Hr. rewrite Hn in Hr.
    simpl in Hr. injection Hr as <-.
    unfold Segments.make_range, Segments.begin, size. simpl. lia.
  - unfold Segments.conversion_segments in Hr. rewrite Hn in Hr.
    simpl in Hr. injection Hr as <-.
    unfold Segments.make_range, Segments.begin, Segments.end', size.
    simpl. lia.
Qed.

(** C9: for a range [r] returned by [all()], [history_segments()] or
    [conversion_segments()] of a well-formed container, [r[i]] aborts
    exactly when [0 <= i < r.size()] fails, and [r.front()] and [r.back()]
    abort exactly when [r] is empty; for [0 <= i < r.size()] the call
    [r[i]] returns the [i]-th element of the range, and on a non-empty
    range [front()] and [back()] return its first and its last element. *)
Theorem Range_access_checked ss (r : Segments.Range) (i : Z) :
  Segments.well_formed ss -> Segments.Range_returned ss r ->
  (Segments.Range_at ss r i = Aborts
   <-> ~ (0 <= i < Segments.Range_size r))
  /\ (Segments.Range_front ss r = Aborts
      <-> Segments.Range_empty r = true)
  /\ (Segments.Range_back ss r = Aborts
      <-> Segments.Range_empty r = true)
  /\ (0 <= i < Segments.Range_size r ->
      exists p,
        Segments.Range_at ss r i = Returns p
        /\ Segments.Range_elements ss r !! Z.to_nat i = Some p)
  /\ (Segments.Range_empty r = false ->
      exists p q,
        Segments.Range_front ss r = Returns p
        /\ head (Segments.Range_elements ss r) = Some p
        /\ Segments.Range_back ss r = Returns q
        /\ last (Segments.Range_elements ss r) = Some q).
Proof.
  intros Hwf Hr.
  pose proof (Range_within_returned ss r Hwf Hr) as Hin.
  split; [apply Range_at_Aborts|].
  split; [apply Range_front_Aborts|].
  split; [apply Range_back_Aborts|].
  split; [intros Hi; apply Range_at_within; assumption|].
  intros Hne. unfold Segments.Range_empty in Hne.
  apply Z.eqb_neq in Hne.
  assert (Hsz : 0 < Segments.Range_size r).
  { unfold Segments.Range_within, Segments.Range_size in *. lia. }
  destruct (Range_at_within ss r 0 Hwf Hin) as [p [Hp Hep]]; [lia|].
  destruct (Range_at_within ss r (Segments.Range_size r - 1) Hwf Hin)
    as [q [Hq Heq]]; [lia|].
  unfold Segments.Range_at in Hp, Hq.
  rewrite CHECK_GE_pass, CHECK_LT_pass in Hp, Hq by lia.
  simpl in Hp, Hq.
  assert (Hemp : Segments.Range_empty r = false).
  { unfold Segments.Range_empty. apply Z.eqb_neq. assumption. }
  exists p, q. split; [|split; [|split]].
  - unfold Segments.Range_front. rewrite Hemp. simpl.
    rewrite Z.add_0_r in Hp. exact Hp.
  - rewrite head_lookup. exact Hep.
  - unfold Segments.Range_back. rewrite Hemp. simpl.
    replace (Segments.end_ r - 1)
      with (Segments.begin_ r + (Segments.Range_size r - 1))
      by (unfold Segments.Range_size; lia).
    exact Hq.
  - rewrite last_lookup.
    replace (Nat.pred (length (Segments.Range_elements ss r)))
      with (Z.to_nat (Segments.Range_size r - 1)); [exact Heq|].
    unfold Segments.Range_elements.
    rewrite length_take, length_drop.
    unfold Segments.Range_within, Segments.Range_size, size in *. lia.
Qed.

(** *** What the ranges run over *)

Lemma Range_elements_all ss :
  Segments.Range_elements ss (Segments.all ss) = Segments.segments_ ss.
Proof.
  unfold Segments.Range_elements, Segments.all, Segments.make_range,
    Segments.Range_size, Segments.begin, Segments.end', size. simpl.
  rewrite Z.sub_0_r, Nat2Z.id. apply take_ge. lia.
Qed.

(** [history_segments()] runs over the first [history_segments_size()]
    segments, [conversion_segments()] over the others. *)
Lemma Range_elements_partition ss :
  Segments.well_formed ss ->
  exists (n : nat) rh rc,
    Segments.history_segments_size ss = Returns (Z.of_nat n)
    /\ Segments.history_segments ss = Returns rh
    /\ Segments.conversion_segments ss = Returns rc
    /\ Segments.Range_elements ss rh = take n (Segments.segments_ ss)
    /\ Segments.Range_elements ss rc = drop n (Segments.segments_ ss).
Proof.
  intros Hwf.
  destruct (history_segments_size_spec ss Hwf) as [n [Hn [[Hle _] _]]].
  exists n. eexists. eexists. split; [exact Hn|].
  unfold Segments.history_segments, Segments.conversion_segments.
  rewrite Hn. simpl. split; [reflexivity|]. split; [reflexivity|].
  unfold Segments.Range_elements, Segments.make_range,
    Segments.Range_size, Segments.begin, Segments.end', size. simpl.
  split.
  - replace (Z.to_nat (0 + Z.of_nat n - 0)) with n by lia.
    reflexivity.
  - replace (Z.to_nat (0 + Z.of_nat n)) with n by lia.
    apply take_ge. rewrite length_drop. lia.
Qed.

(** On a range inside the list, [drop], [take] and [take_last] are the
    list operations on what the range runs over. *)
Lemma Range_drop_elements ss (r : Segments.Range) (n : Z) :
  Segments.Range_within ss r -> 0 <= n ->
  exists r',
    Segments.Range_drop r n = Returns r'
    /\ Segments.Range_within ss r'
    /\ Segments.Range_elements ss r'
       = drop (Z.to_nat n) (Segments.Range_elements ss r).
Proof.
  intros [Hb He] Hn. rewrite Range_drop_nonneg by assumption.
  eexists. split; [reflexivity|].
  unfold Segments.Range_within, Segments.Range_elements,
    Segments.Range_size in *. simpl.
  destruct (Z.ltb_spec n (Segments.end_ r - Segments.begin_ r)).
  - split; [lia|]. rewrite skipn_firstn_comm, drop_drop.
    f_equal; [|f_equal]; lia.
  - split; [lia|]. rewrite Z.sub_diag. simpl.
    symmetry. apply drop_ge. rewrite length_take. lia.
Qed.

Lemma Range_take_elements ss (r : Segments.Range) (n : Z) :
  Segments.Range_within ss r -> 0 <= n ->
  exists r',
    Segments.Range_take r n = Returns r'
    /\ Segments.Range_within ss r'
    /\ Segments.Range_elements ss r'
       = take (Z.to_nat n) (Segments.Range_elements ss r).
Proof.
  intros [Hb He] Hn. rewrite Range_take_nonneg by assumption.
  eexists. split; [reflexivity|].
  unfold Segments.Range_within, Segments.Range_elements,
    Segments.Range_size in *. simpl.
  destruct (Z.ltb_spec n (Segments.end_ r - Segments.begin_ r)).
  - split; [lia|]. rewrite take_take. f_equal. lia.
  - split; [lia|]. rewrite take_take. f_equal. lia.
Qed.

Lemma Range_take_last_elements ss (r : Segments.Range) (n : Z) :
  Segments.Range_within ss r -> 0 <= n ->
  exists r',
    Segments.Range_take_last r n = Returns r'
    /\ Segments.Range_within ss r'
    /\ Segments.Range_elements ss r'
       = Segments.last_n n (Segments.Range_elements ss r).
Proof.
  intros Hin Hn. unfold Segments.Range_take_last.
  rewrite CHECK_GE_pass by assumption. simpl.
  destruct (Range_drop_elements ss r
              (Z.max 0 (Segments.Range_size r - n)) Hin)
    as [r' [Hd [Hin' He]]]; [lia|].
  exists r'. split; [exact Hd|]. split; [exact Hin'|].
  rewrite He. unfold Segments.last_n. f_equal.
  unfold Segments.Range_elements. rewrite length_take, length_drop.
  destruct Hin as [Hb Hle].
  unfold Segments.Range_size, size in *. lia.
Qed.

End RangeFacts.

Lemma five_well_formed : Segments.well_formed Scenario.five.
Proof.
  split.
  - simpl. repeat constructor; eexists; reflexivity.
  - unfold size_t_range, Segments.segments_size, size. simpl. lia.
Defined.

Lemma history_partition_derived_witness :
  exists n : nat,
    Segments.history_segments_size Scenario.five = Returns (Z.of_nat n)
    /\ Segments.conversion_segments_size Scenario.five
       = Returns (Segments.segments_size Scenario.five - Z.of_nat n)
    /\ exists p,
         Segments.conversion_segment Scenario.five 0 = Returns p
         /\ Segments.segment Scenario.five (Z.of_nat n + 0) = Returns p.
Proof.
  destruct (history_partition_derived Scenario.five five_well_formed)
    as [n [Hn [_ [_ [Hconv Hseg]]]]].
  exists n. split; [exact Hn|]. split; [exact Hconv|].
  apply Hseg.
  assert (Hthree : Z.of_nat n = 3).
  { assert (Hc : Segments.history_segments_size Scenario.five
                 = Returns 3) by reflexivity.
    rewrite Hn in Hc. injection Hc as Hc. exact Hc. }
  rewrite Hthree. unfold Segments.segments_size, size. simpl. lia.
Defined.

Lemma Range_access_checked_witness :
  exists p,
    Segments.Range_at Scenario.five (Segments.mkRange 3 5) 1 = Returns p
    /\ Segments.Range_elements Scenario.five (Segments.mkRange 3 5)
         !! Z.to_nat 1 = Some p.
Proof.
  destruct (Range_access_checked Scenario.five (Segments.mkRange 3 5) 1
              five_well_formed)
    as [_ [_ [_ [Hat _]]]].
  - right. right. reflexivity.
  - apply Hat. unfold Segments.Range_size. simpl. lia.
Defined.

(** ** Segments: history keys *)

Lemma string_app_assoc (a b c : string) :
  ((a +:+ b) +:+ c)%string = (a +:+ (b +:+ c))%string.
Proof.
  induction a as [|x a IH]; [reflexivity|].
  change (String x ((a +:+ b) +:+ c) = String x (a +:+ (b +:+ c))).
  now rewrite IH.
Qed.

Lemma leading_run_take {A : Type} (f : A -> bool) (l : list A) :
  Segments.leading_run f l = take (length (Segments.leading_run f l)) l.
Proof.
  induction l as [|x l IH]; simpl; [reflexivity|].
  destruct (f x); simpl; [now rewrite <- IH | reflexivity].
Qed.

(** Read through live pointers, the list of segments has the length of the
    list of pointers and the same positions. *)
Lemma omap_live_lookup {A : Type} (h : gmap addr A) (l : list addr)
    (k : nat) :
  Forall (fun p => is_Some (h !! p)) l ->
  omap (fun p => h !! p) l !! k = l !! k ≫= (fun p => h !! p).
Proof.
  intros Hlive. revert k. induction Hlive as [|p l [x Hx] _ IH]; intros k.
  - reflexivity.
  - simpl. rewrite Hx. destruct k as [|k]; simpl; [now rewrite Hx | apply IH].
Qed.

Lemma omap_live_length {A : Type} (h : gmap addr A) (l : list addr) :
  Forall (fun p => is_Some (h !! p)) l ->
  length (omap (fun p => h !! p) l) = length l.
Proof.
  intros Hlive. induction Hlive as [|p l [x Hx] _ IH]; [reflexivity|].
  simpl. rewrite Hx. simpl. f_equal. exact IH.
Qed.

(** The scan counts the history segments. *)
Lemma history_scan_leading_run (h : gmap addr Segment.Segment)
    (l : list addr) :
  Forall (fun p => is_Some (h !! p)) l ->
  Segments.history_scan h l
  = Returns (Z.of_nat (length (Segments.leading_run
       (fun s => Segments.is_history_type (Segment.segment_type s))
       (omap (fun p => h !! p) l)))).
Proof.
  intros Hlive. induction Hlive as [|p l [s Hs] _ IH].
  - reflexivity.
  - simpl. rewrite (deref_live _ _ _ Hs), Hs. simpl.
    destruct (Segments.is_history_type (Segment.segment_type s)).
    + rewrite IH. simpl. unfold mret, outcome_ret. f_equal.
      rewrite Nat2Z.inj_succ. reflexivity.
    + reflexivity.
Qed.

Section HistoryKeyFacts.

Context {Lattice : Type}.
Implicit Type ss : Segments.Segments Lattice.

Lemma segment_values_lookup ss (k : nat) :
  Segments.well_formed ss ->
  Segments.segment_values ss !! k
  = Segments.segments_ ss !! k ≫= (fun p => Segments.pool_ ss !! p).
Proof. intros [Hlive _]. apply omap_live_lookup. exact Hlive. Qed.

Lemma history_list_length ss :
  Segments.well_formed ss ->
  Segments.history_segments_size ss
  = Returns (Z.of_nat (length (Segments.history_list ss))).
Proof. intros [Hlive _]. apply history_scan_leading_run. exact Hlive. Qed.

Lemma history_list_take ss :
  Segments.history_list ss
  = take (length (Segments.history_list ss)) (Segments.segment_values ss).
Proof. apply leading_run_take. Qed.

(** The loop of [history_key]: [n] steps from position [i] append the keys
    of the segments at the positions [i], ..., [i + n - 1]. *)
Lemma append_keys_spec ss (n : nat) (i : Z) (output : string) :
  Segments.well_formed ss ->
  0 <= i -> i + Z.of_nat n <= Segments.segments_size ss ->
  Segments.append_keys ss i n output
  = Returns (output +:+ Segments.concat_keys
                          (take n (drop (Z.to_nat i)
                                        (Segments.segment_values ss)))).
Proof.
  intros Hwf. revert i output.
  induction n as [|n IH]; intros i output Hi Hle.
  - simpl. unfold mret, outcome_ret. f_equal.
    induction output as [|x o IHo]; [reflexivity|].
    change (String x o = String x (o +:+ EmptyString)). now rewrite <- IHo.
  - destruct (segment_in_range ss i Hwf) as [p [Hp [Hat [[s Hs] _]]]];
      [lia|].
    simpl. unfold Segments.history_segment. rewrite Hat. simpl.
    rewrite (deref_live _ _ _ Hs). simpl.
    rewrite (deref_live _ _ _ Hs). simpl.
    rewrite IH by lia.
    assert (Hv : Segments.segment_values ss !! Z.to_nat i = Some s).
    { rewrite segment_values_lookup by assumption. rewrite Hp. exact Hs. }
    rewrite (drop_S _ _ _ Hv). simpl.
    rewrite string_app_assoc.
    replace (Z.to_nat (i + 1)) with (S (Z.to_nat i)) by lia.
    reflexivity.
Qed.

(** C8: in a well-formed container with [h] history segments,
    [history_key(n)] is the concatenation, in order, of the keys of the
    last [min(n, h)] history segments, and of all of them for [n = -1];
    hence [history_key(-1)] is [history_key(h)], and [history_key(n)] for
    [n > h] is [history_key(-1)]. *)
Theorem history_key_last_segments ss (n : Z) :
  Segments.well_formed ss ->
  exists h,
    Segments.history_segments_size ss = Returns h
    /\ h = Z.of_nat (length (Segments.history_list ss))
    /\ Segments.history_key ss n
       = Returns (Segments.concat_keys
                    (Segments.last_n (if n =? -1 then h else Z.min n h)
                                     (Segments.history_list ss)))
    /\ Segments.history_key ss (-1)
       = Returns (Segments.concat_keys (Segments.history_list ss))
    /\ Segments.history_key ss (-1) = Segments.history_key ss h
    /\ (h < n -> Segments.history_key ss n = Segments.history_key ss (-1)).
Proof.
  intros Hwf.
  pose proof (history_list_length ss Hwf) as Hh.
  set (H := Segments.history_list ss) in *.
  assert (Hlen : Z.of_nat (length H) <= Segments.segments_size ss).
  { subst H. rewrite history_list_take at 1. rewrite length_take.
    assert (length (Segments.segment_values ss)
            = length (Segments.segments_ ss))
      by (destruct Hwf as [Hlive _]; apply omap_live_length; exact Hlive).
    unfold Segments.segments_size, size. lia. }
  assert (Hkey : forall c,
    c <= Z.of_nat (length H) ->
    Segments.append_keys ss (Z.of_nat (length H) - c) (Z.to_nat c)
                         EmptyString
    = Returns (Segments.concat_keys (Segments.last_n c H))).
  { intros c Hc. destruct (Z.le_gt_cases c 0) as [Hc0 | Hc0].
    { replace (Z.to_nat c) with 0%nat by lia. simpl.
      unfold Segments.last_n. replace (Z.to_nat c) with 0%nat by lia.
      rewrite Nat.sub_0_r, drop_all. reflexivity. }
    rewrite append_keys_spec by (try assumption; lia).
    unfold mret, outcome_ret. f_equal.
    change (EmptyString +:+ ?x)%string with x.
    f_equal. unfold Segments.last_n.
    subst H. rewrite history_list_take at 3.
    rewrite skipn_firstn_comm. f_equal; [|f_equal]; lia. }
  assert (Hgen : forall m,
    Segments.history_key ss m
    = Returns (Segments.concat_keys
                 (Segments.last_n
                    (if m =? -1 then Z.of_nat (length H)
                     else Z.min m (Z.of_nat (length H))) H))).
  { intros m. unfold Segments.history_key. rewrite Hh. simpl.
    apply Hkey. destruct (m =? -1); lia. }
  exists (Z.of_nat (length H)).
  split; [exact Hh|]. split; [reflexivity|]. split; [apply Hgen|].
  split; [|split].
  - rewrite Hgen. simpl. unfold Segments.last_n.
    rewrite Nat2Z.id, Nat.sub_diag. reflexivity.
  - rewrite !Hgen. simpl.
    destruct (Z.eqb_spec (Z.of_nat (length H)) (-1)) as [|_]; [lia|].
    rewrite Z.min_id. reflexivity.
  - intros Hn. rewrite !Hgen. simpl.
    destruct (Z.eqb_spec n (-1)) as [|_]; [lia|].
    rewrite Z.min_r by lia. reflexivity.
Qed.

End HistoryKeyFacts.

Lemma history_key_last_segments_witness :
  Segments.history_key Scenario.five 2 = Returns "youha"%string
  /\ Segments.history_key Scenario.five (-1) = Returns "kiyouha"%string
  /\ Segments.history_key Scenario.five (-1)
     = Segments.history_key Scenario.five 3.
Proof.
  destruct (history_key_last_segments Scenario.five 2 five_well_formed)
    as [h [_ [Hh [Hkey [Hall [Hsame _]]]]]].
  assert (Hthree : h = 3) by (rewrite Hh; reflexivity).
  split; [|split].
  - rewrite Hkey, Hthree. reflexivity.
  - rewrite Hall. reflexivity.
  - rewrite Hsame, Hthree. reflexivity.
Defined.

(** ** The scenarios of the specification, evaluated *)

Example three_two_valid_indices :
  map (Segment.is_valid_index Scenario.three_two) [0; 2; 3; -1; -2; -3]
  = [true; true; false; true; true; false].
Proof. reflexivity. Qed.

Example three_two_int_min :
  Segment.is_valid_index Scenario.three_two int_min = false.
Proof. reflexivity. Qed.

Example three_two_meta_access :
  Segment.mutable_candidate false Scenario.three_two (-1)
  = Returns (Segment.Meta 0)
  /\ Segment.mutable_candidate false Scenario.three_two (-3) = Aborts
  /\ Segment.mutable_candidate true Scenario.three_two (-3) = Undefined
  /\ Segment.candidate false Scenario.three_two 3 = Aborts.
Proof. repeat split; reflexivity. Qed.

Example five_partition :
  Segments.history_segments_size Scenario.five = Returns 3
  /\ Segments.conversion_segments_size Scenario.five = Returns 2
  /\ Segments.conversion_segment Scenario.five 0 = Returns 4%positive
  /\ Segments.history_segments Scenario.five
     = Returns (Segments.mkRange 0 3)
  /\ Segments.conversion_segments Scenario.five
     = Returns (Segments.mkRange 3 5).
Proof. repeat split; reflexivity. Qed.

(** The partition is derived: a change of the type of segment 2 moves
    it. *)
Example five_retyped :
  (ss ← Scenario.retype Scenario.five 2 Segment.FREE;
   Segments.history_segments_size ss) = Returns 2.
Proof. reflexivity. Qed.

Example five_history_keys :
  Segments.history_key Scenario.five 1 = Returns "ha"%string
  /\ Segments.history_key Scenario.five 0 = Returns EmptyString
  /\ Segments.history_key Scenario.five 7 = Returns "kiyouha"%string.
Proof. repeat split; reflexivity. Qed.

Example encode_256_fails :
  Candidate.EncodeLengths 256 1 1 1 = None
  /\ Candidate.EncodeLengths 9 3 9 3 = Some 151193859.
Proof. split; reflexivity. Qed.

Example range_out_of_bounds :
  Segments.Range_at Scenario.five (Segments.mkRange 3 5) 2 = Aborts
  /\ Segments.Range_at Scenario.five (Segments.mkRange 3 5) (-1) = Aborts
  /\ Segments.Range_front Scenario.five (Segments.mkRange 3 3) = Aborts
  /\ Segments.Range_back Scenario.five (Segments.mkRange 3 5)
     = Returns 5%positive.
Proof. repeat split; reflexivity. Qed.

(** * Further properties of the accessors *)

(** ** Segment: what an invalid index does *)

Lemma at_out_of_range {A : Type} (l : list A) (i : Z) :
  size l <= i -> at_ l i = Undefined.
Proof.
  unfold size, at_. intros Hi.
  destruct (Z.ltb_spec i 0); [reflexivity|].
  rewrite lookup_ge_None_2 by lia. reflexivity.
Qed.

Lemma DCHECK_false (ndebug : bool) :
  DCHECK ndebug false = if ndebug then Returns tt else Aborts.
Proof. destruct ndebug; reflexivity. Qed.

(** [mutable_candidate(i)] returns a reference exactly at the indices that
    [is_valid_index] accepts.  At any other index a debug build aborts on
    the [DCHECK_LT]; with [NDEBUG] the check is gone and the container is
    indexed out of range. *)
Theorem mutable_candidate_checked (ndebug : bool) (s : Segment.Segment)
    (i : Z) :
  int_range i ->
  (Segment.is_valid_index s i = true ->
   exists r, Segment.mutable_candidate ndebug s i = Returns r)
  /\ (Segment.is_valid_index s i = false ->
      Segment.mutable_candidate ndebug s i
      = if ndebug then Undefined else Aborts).
Proof.
  intros Hr. unfold Segment.mutable_candidate, DCHECK_LT.
  destruct (Z.lt_ge_cases i 0) as [Hneg | Hpos].
  - rewrite is_valid_index_neg by assumption.
    unfold Segment.meta_candidates_size.
    destruct (Z.ltb_spec i 0) as [_|]; [|lia].
    assert (Hidx : to_size_t (int_sub (int_neg i) 1) = - i - 1).
    { rewrite int_meta_index by assumption. apply to_size_t_id.
      unfold int_range, int_min, int_max in Hr. lia. }
    simpl. rewrite Hidx. split; intros Hv; rewrite Hv.
    + apply Z.ltb_lt in Hv.
      destruct (at_in_range (Segment.meta_candidates_ s) (- i - 1))
        as [c [_ Hat]]; [lia|].
      rewrite DCHECK_true, Hat. simpl. eauto.
    + apply Z.ltb_ge in Hv. rewrite DCHECK_false.
      destruct ndebug; [|reflexivity]. simpl.
      rewrite at_out_of_range by assumption. reflexivity.
  - rewrite is_valid_index_nonneg by assumption.
    unfold Segment.candidates_size.
    destruct (Z.ltb_spec i 0) as [|_]; [lia|].
    rewrite to_size_t_int by assumption.
    split; intros Hv; rewrite Hv.
    + apply Z.ltb_lt in Hv.
      destruct (at_in_range (Segment.candidates_ s) i) as [p [_ Hat]];
        [lia|].
      rewrite DCHECK_true, Hat. simpl. eauto.
    + apply Z.ltb_ge in Hv. rewrite DCHECK_false.
      destruct ndebug; [|reflexivity]. simpl.
      rewrite at_out_of_range by assumption. reflexivity.
Qed.

Lemma mutable_candidate_checked_witness :
  (exists r,
     Segment.mutable_candidate true Scenario.three_two (-2) = Returns r)
  /\ Segment.mutable_candidate true Scenario.three_two 3 = Undefined
  /\ Segment.mutable_candidate false Scenario.three_two 3 = Aborts.
Proof.
  assert (Hr : forall i, -5 <= i <= 5 -> int_range i)
    by (unfold int_range, int_min, int_max; lia).
  destruct (mutable_candidate_checked true Scenario.three_two (-2)
              (Hr (-2) ltac:(lia))) as [Hok _].
  destruct (mutable_candidate_checked true Scenario.three_two 3
              (Hr 3 ltac:(lia))) as [_ Hrel].
  destruct (mutable_candidate_checked false Scenario.three_two 3
              (Hr 3 ltac:(lia))) as [_ Hdbg].
  split; [exact (Hok eq_refl)|].
  split; [exact (Hrel eq_refl) | exact (Hdbg eq_refl)].
Defined.



(** ** Segment: what the getter leaves as it is *)

(** The two ways in which [candidate(i)] returns. *)
Lemma candidate_returns_inv (ndebug : bool) (s s' : Segment.Segment)
    (i : Z) (r : Segment.CandidateRef) :
  Segment.candidate ndebug s i = Returns (r, s') ->
  (i < 0 /\ s' = s /\ exists k, r = Segment.Meta k)
  \/ (0 <= i
      /\ exists p c,
           r = Segment.Pooled p
           /\ Segment.pool_ s !! p = Some c
           /\ DCHECK ndebug (to_size_t i <? size (Segment.candidates_ s))
              = Returns tt
           /\ at_ (Segment.candidates_ s) (to_size_t i) = Returns p
           /\ s' = Segment.set_pool_
                     (<[p := Segment.assign_literal c Segment.literal_750]>
                        (Segment.pool_ s)) s).
Proof.
  unfold Segment.candidate.
  destruct (Z.ltb_spec i 0) as [Hneg | Hpos].
  - unfold Segment.meta_candidate.
    destruct (DCHECK_LT ndebug _ _) as [[]| |]; simpl; try discriminate.
    destruct (at_ (Segment.meta_candidates_ s) _) as [c| |]; simpl;
      try discriminate.
    intros [= <- <-]. left. eauto.
  - destruct (DCHECK ndebug _) as [[]| |] eqn:Hd; simpl; try discriminate.
    destruct (at_ (Segment.candidates_ s) (to_size_t i)) as [p| |] eqn:Hat;
      simpl; try discriminate.
    destruct (deref (Segment.pool_ s) p) as [c| |] eqn:Hc; simpl;
      try discriminate.
    unfold deref in Hc.
    destruct (Segment.pool_ s !! p) as [c'|] eqn:Hp; [|discriminate].
    injection Hc as ->.
    unfold deref. rewrite lookup_insert_eq. simpl.
    intros [= <- <-]. right. split; [assumption|].
    exists p, c. auto.
Qed.

(** When [candidate(i)] returns, the write of segments.h:750 is confined
    to the candidate object it returns: the type and key of the segment,
    the deque of pointers, the meta candidates and every other candidate
    object are as before, no object appears or disappears, and every index
    is valid after the call exactly if it was before. *)
Theorem candidate_frame (ndebug : bool) (s s' : Segment.Segment) (i : Z)
    (r : Segment.CandidateRef) :
  Segment.candidate ndebug s i = Returns (r, s') ->
  Segment.segment_type_ s' = Segment.segment_type_ s
  /\ Segment.key_ s' = Segment.key_ s
  /\ Segment.candidates_ s' = Segment.candidates_ s
  /\ Segment.meta_candidates_ s' = Segment.meta_candidates_ s
  /\ Segment.removed_candidates_for_debug_ s'
     = Segment.removed_candidates_for_debug_ s
  /\ (forall q, r <> Segment.Pooled q ->
      Segment.pool_ s' !! q = Segment.pool_ s !! q)
  /\ (forall q, is_Some (Segment.pool_ s' !! q)
                <-> is_Some (Segment.pool_ s !! q))
  /\ (forall j, Segment.is_valid_index s' j = Segment.is_valid_index s j).
Proof.
  intros Hc.
  destruct (candidate_returns_inv _ _ _ _ _ Hc)
    as [[_ [-> _]] | [_ [p [c [-> [Hp [_ [_ ->]]]]]]]].
  - repeat split; auto.
  - simpl. repeat split; try reflexivity.
    + intros q Hq. apply lookup_insert_ne. congruence.
    + destruct (decide (p = q)) as [<- | Hne].
      * rewrite Hp. eauto.
      * rewrite lookup_insert_ne by assumption. auto.
    + destruct (decide (p = q)) as [<- | Hne].
      * rewrite lookup_insert_eq. eauto.
      * rewrite lookup_insert_ne by assumption. auto.
Qed.

Lemma candidate_frame_witness :
  exists s',
    Segment.candidate false Scenario.three_two 0
    = Returns (Segment.Pooled 1%positive, s')
    /\ Segment.candidates_ s' = Segment.candidates_ Scenario.three_two
    /\ Segment.pool_ s' !! 2%positive
       = Segment.pool_ Scenario.three_two !! 2%positive.
Proof.
  eexists. split; [reflexivity|].
  destruct (candidate_frame false Scenario.three_two _ 0 _ eq_refl)
    as [_ [_ [Hl [_ [_ [Hq _]]]]]].
  split; [exact Hl|]. apply Hq. discriminate.
Defined.

(** A second [candidate(i)] after one that returned returns the same
    reference and changes nothing more: the getter writes the same literal
    again. *)
Theorem candidate_twice (ndebug : bool) (s s' : Segment.Segment) (i : Z)
    (r : Segment.CandidateRef) :
  Segment.candidate ndebug s i = Returns (r, s') ->
  Segment.candidate ndebug s' i = Returns (r, s').
Proof.
  intros Hc.
  destruct (candidate_returns_inv _ _ _ _ _ Hc)
    as [[_ [-> _]] | [Hi [p [c [-> [Hp [Hd [Hat ->]]]]]]]].
  - exact Hc.
  - unfold Segment.candidate.
    destruct (Z.ltb_spec i 0) as [|_]; [lia|].
    cbn [Segment.candidates_ Segment.set_pool_ Segment.pool_].
    rewrite Hd. simpl. rewrite Hat. simpl.
    unfold deref. rewrite lookup_insert_eq. simpl.
    rewrite lookup_insert_eq. simpl.
    rewrite insert_insert_eq. reflexivity.
Qed.

Lemma candidate_twice_witness :
  exists s',
    Segment.candidate false Scenario.three_two 0
    = Returns (Segment.Pooled 1%positive, s')
    /\ Segment.candidate false s' 0
       = Returns (Segment.Pooled 1%positive, s').
Proof.
  eexists. split; [reflexivity|].
  apply (candidate_twice false Scenario.three_two _ 0 _ eq_refl).
Defined.

(** ** Candidate: content plus functional part *)

Lemma suffix_past_app (a t : string) :
  Candidate.suffix_past (String.length a) (a +:+ t) = t.
Proof.
  induction a as [|x a IH]; [reflexivity|].
  change (Candidate.suffix_past (String.length a) (a +:+ t) = t).
  exact IH.
Qed.

(** When [content_key] is a prefix of [key], [functional_key()] is what
    follows it, so that [content_key] and [functional_key()] put together
    give [key] back; the same for [content_value], [functional_value()] and
    [value]. *)
Theorem functional_parts_complete_content (c : Candidate.Candidate) :
  (forall t, Candidate.key c = (Candidate.content_key c +:+ t)%string ->
             Candidate.functional_key c = t)
  /\ (forall t,
        Candidate.value c = (Candidate.content_value c +:+ t)%string ->
        Candidate.functional_value c = t).
Proof.
  split; intros t Ht.
  - unfold Candidate.functional_key. rewrite functional_view, Ht.
    apply suffix_past_app.
  - unfold Candidate.functional_value. rewrite functional_view, Ht.
    apply suffix_past_app.
Qed.

Lemma functional_parts_complete_content_witness :
  Candidate.functional_key Scenario.tabeta = "ta"%string
  /\ Candidate.functional_value Scenario.tabeta = "en"%string.
Proof.
  destruct (functional_parts_complete_content Scenario.tabeta)
    as [Hk Hv].
  split; [apply Hk | apply Hv]; reflexivity.
Defined.

(** ** Segment: clearing the meta candidates *)

(** After [clear_meta_candidates()] no negative index is valid, the
    validity of the indices [i >= 0] is what it was, and the candidates and
    their objects are untouched. *)
Theorem clear_meta_candidates_indices (s : Segment.Segment) (i : Z) :
  int_range i ->
  (i < 0 ->
   Segment.is_valid_index (Segment.clear_meta_candidates s) i = false)
  /\ (0 <= i ->
      Segment.is_valid_index (Segment.clear_meta_candidates s) i
      = Segment.is_valid_index s i)
  /\ Segment.meta_candidates_size (Segment.clear_meta_candidates s) = 0
  /\ Segment.candidates_size (Segment.clear_meta_candidates s)
     = Segment.candidates_size s
  /\ Segment.pool_ (Segment.clear_meta_candidates s) = Segment.pool_ s.
Proof.
  intros Hr. split; [|split; [|repeat split]].
  - intros Hi. rewrite is_valid_index_neg by assumption.
    apply Z.ltb_ge. unfold Segment.meta_candidates_size, size. simpl. lia.
  - intros Hi. rewrite !is_valid_index_nonneg by assumption. reflexivity.
Qed.

Lemma clear_meta_candidates_indices_witness :
  Segment.is_valid_index Scenario.three_two (-1) = true
  /\ Segment.is_valid_index
       (Segment.clear_meta_candidates Scenario.three_two) (-1) = false
  /\ Segment.is_valid_index
       (Segment.clear_meta_candidates Scenario.three_two) 2 = true.
Proof.
  assert (Hr : forall i, -5 <= i <= 5 -> int_range i)
    by (unfold int_range, int_min, int_max; lia).
  destruct (clear_meta_candidates_indices Scenario.three_two (-1)
              (Hr (-1) ltac:(lia))) as [Hneg _].
  destruct (clear_meta_candidates_indices Scenario.three_two 2
              (Hr 2 ltac:(lia))) as [_ [Hpos _]].
  split; [reflexivity|]. split; [apply Hneg; lia|].
  rewrite Hpos by lia. reflexivity.
Defined.

(** ** Ranges: how the operations compose *)

Lemma CHECK_LT_fail (a b : Z) : b <= a -> CHECK_LT a b = Aborts.
Proof.
  intros Hle. unfold CHECK_LT, CHECK.
  destruct (Z.ltb_spec a b); [lia | reflexivity].
Qed.

(** Dropping [a] and then [b] elements is dropping [a + b], on every
    range. *)
Theorem Range_drop_drop (r : Segments.Range) (a b : Z) :
  0 <= a -> 0 <= b ->
  (r' ← Segments.Range_drop r a; Segments.Range_drop r' b)
  = Segments.Range_drop r (a + b).
Proof.
  intros Ha Hb. rewrite !Range_drop_nonneg by lia. simpl.
  rewrite Range_drop_nonneg by lia. f_equal.
  unfold Segments.Range_size. simpl.
  destruct (Z.ltb_spec a (Segments.end_ r - Segments.begin_ r));
    destruct (Z.ltb_spec (a + b) (Segments.end_ r - Segments.begin_ r));
    match goal with
    | |- context [?x <? ?y] => destruct (Z.ltb_spec x y)
    end; f_equal; lia.
Qed.

Lemma Range_drop_drop_witness :
  (r' ← Segments.Range_drop (Segments.mkRange 0 5) 2;
   Segments.Range_drop r' 1)
  = Segments.Range_drop (Segments.mkRange 0 5) (2 + 1).
Proof.
  apply (Range_drop_drop (Segments.mkRange 0 5) 2 1); lia.
Defined.

(** Taking [a] and then [b] elements is taking [min(a, b)], on every
    range. *)
Theorem Range_take_take (r : Segments.Range) (a b : Z) :
  0 <= a -> 0 <= b ->
  (r' ← Segments.Range_take r a; Segments.Range_take r' b)
  = Segments.Range_take r (Z.min a b).
Proof.
  intros Ha Hb. rewrite !Range_take_nonneg by lia. simpl.
  rewrite Range_take_nonneg by lia. f_equal.
  unfold Segments.Range_size. simpl.
  destruct (Z.ltb_spec a (Segments.end_ r - Segments.begin_ r));
    destruct (Z.ltb_spec (Z.min a b)
                         (Segments.end_ r - Segments.begin_ r));
    match goal with
    | |- context [?x <? ?y] => destruct (Z.ltb_spec x y)
    end; f_equal; lia.
Qed.

Lemma Range_take_take_witness :
  (r' ← Segments.Range_take (Segments.mkRange 0 5) 4;
   Segments.Range_take r' 7)
  = Segments.Range_take (Segments.mkRange 0 5) (Z.min 4 7).
Proof.
  apply (Range_take_take (Segments.mkRange 0 5) 4 7); lia.
Defined.

(** [subrange(index, count)] aborts exactly when one of its arguments is
    negative; otherwise it is also what [take(index + count)] followed by
    [drop(index)] gives, on every range. *)
Theorem Range_subrange_take_drop (r : Segments.Range) (index count : Z) :
  (Segments.Range_subrange r index count = Aborts
   <-> index < 0 \/ count < 0)
  /\ (0 <= index -> 0 <= count ->
      Segments.Range_subrange r index count
      = (r' ← Segments.Range_take r (index + count);
         Segments.Range_drop r' index)).
Proof.
  unfold Segments.Range_subrange. split.
  - destruct (Z.lt_ge_cases index 0) as [Hi | Hi].
    + unfold Segments.Range_drop.
      rewrite (proj2 (CHECK_GE_Aborts index 0) Hi). simpl.
      split; [auto | reflexivity].
    + rewrite Range_drop_nonneg by assumption. simpl.
      destruct (Z.lt_ge_cases count 0) as [Hc | Hc].
      * unfold Segments.Range_take.
        rewrite (proj2 (CHECK_GE_Aborts count 0) Hc). simpl.
        split; [auto | reflexivity].
      * rewrite Range_take_nonneg by assumption.
        split; [discriminate | lia].
  - intros Hi Hc.
    rewrite Range_drop_nonneg, Range_take_nonneg by lia. simpl.
    rewrite Range_drop_nonneg, Range_take_nonneg by lia. f_equal.
    unfold Segments.Range_size. simpl.
    destruct (Z.ltb_spec index (Segments.end_ r - Segments.begin_ r));
      destruct (Z.ltb_spec (index + count)
                           (Segments.end_ r - Segments.begin_ r));
      repeat match goal with
        | |- context [?x <? ?y] => destruct (Z.ltb_spec x y)
        end; f_equal; lia.
Qed.

Lemma Range_subrange_take_drop_witness :
  Segments.Range_subrange (Segments.mkRange 0 5) 1 3
  = Returns (Segments.mkRange 1 4)
  /\ Segments.Range_subrange (Segments.mkRange 0 5) (-1) 3 = Aborts.
Proof.
  destruct (Range_subrange_take_drop (Segments.mkRange 0 5) 1 3)
    as [_ Heq].
  destruct (Range_subrange_take_drop (Segments.mkRange 0 5) (-1) 3)
    as [Hab _].
  split.
  - rewrite Heq by lia. reflexivity.
  - apply Hab. left. lia.
Defined.

(** The sizes after [drop], [take] and [take_last] on a range of size
    [>= 0]: [max(0, size - n)], [min(n, size)] and [min(n, size)]; what
    [take(n)] keeps and what [drop(n)] keeps add up to the range, and the
    first ends where the second begins. *)
Theorem Range_sizes (r : Segments.Range) (n : Z) :
  0 <= Segments.Range_size r -> 0 <= n ->
  exists rd rt rl,
    Segments.Range_drop r n = Returns rd
    /\ Segments.Range_take r n = Returns rt
    /\ Segments.Range_take_last r n = Returns rl
    /\ Segments.Range_size rd = Z.max 0 (Segments.Range_size r - n)
    /\ Segments.Range_size rt = Z.min n (Segments.Range_size r)
    /\ Segments.Range_size rl = Z.min n (Segments.Range_size r)
    /\ Segments.end_ rt = Segments.begin_ rd
    /\ Segments.begin_ rt = Segments.begin_ r
    /\ Segments.end_ rd = Segments.end_ r
    /\ Segments.end_ rl = Segments.end_ r.
Proof.
  intros Hs Hn. unfold Segments.Range_take_last.
  rewrite CHECK_GE_pass by assumption. simpl.
  rewrite !Range_drop_nonneg, Range_take_nonneg by lia.
  do 3 eexists. do 3 (split; [reflexivity|]).
  unfold Segments.Range_size in *. simpl.
  destruct (Z.ltb_spec n (Segments.end_ r - Segments.begin_ r));
    destruct (Z.ltb_spec (Z.max 0 (Segments.end_ r - Segments.begin_ r - n))
                         (Segments.end_ r - Segments.begin_ r));
    repeat split; lia.
Qed.

Lemma Range_sizes_witness :
  exists rd rt rl,
    Segments.Range_drop (Segments.mkRange 1 4) 2 = Returns rd
    /\ Segments.Range_take (Segments.mkRange 1 4) 2 = Returns rt
    /\ Segments.Range_take_last (Segments.mkRange 1 4) 2 = Returns rl
    /\ Segments.Range_size rd = 1
    /\ Segments.Range_size rt = 2
    /\ Segments.Range_size rl = 2.
Proof.
  destruct (Range_sizes (Segments.mkRange 1 4) 2)
    as [rd [rt [rl [Hd [Ht [Hl [Hsd [Hst [Hsl _]]]]]]]]];
    [unfold Segments.Range_size; simpl; lia | lia |].
  exists rd, rt, rl.
  split; [exact Hd|]. split; [exact Ht|]. split; [exact Hl|].
  split; [rewrite Hsd; reflexivity|].
  split; [rewrite Hst; reflexivity | rewrite Hsl; reflexivity].
Defined.

(** ** Ranges: indexing through the operations *)

Section RangeIndexFacts.

Context {Lattice : Type}.
Implicit Type ss : Segments.Segments Lattice.

(** Indexing past a drop: [r.drop(n)[i]] is [r[n + i]], the abort on an
    index that is too large included. *)
Theorem Range_drop_index ss (r : Segments.Range) (n i : Z) :
  0 <= n -> 0 <= i ->
  (r' ← Segments.Range_drop r n; Segments.Range_at ss r' i)
  = Segments.Range_at ss r (n + i).
Proof.
  intros Hn Hi. rewrite Range_drop_nonneg by assumption. simpl.
  unfold Segments.Range_at, Segments.Range_size. simpl.
  rewrite !CHECK_GE_pass by lia. simpl.
  destruct (Z.ltb_spec n (Segments.end_ r - Segments.begin_ r)).
  - destruct (Z.lt_ge_cases (n + i) (Segments.end_ r - Segments.begin_ r)).
    + rewrite !CHECK_LT_pass by lia. simpl. f_equal. lia.
    + rewrite !CHECK_LT_fail by lia. reflexivity.
  - rewrite !CHECK_LT_fail by lia. reflexivity.
Qed.

(** Indexing a prefix: [r.take(n)[i]] is [r[i]] for [i < n] and aborts
    for [i >= n]. *)
Theorem Range_take_index ss (r : Segments.Range) (n i : Z) :
  0 <= n ->
  (r' ← Segments.Range_take r n; Segments.Range_at ss r' i)
  = if i <? n then Segments.Range_at ss r i else Aborts.
Proof.
  intros Hn. rewrite Range_take_nonneg by assumption. simpl.
  unfold Segments.Range_at, Segments.Range_size. simpl.
  destruct (Z.lt_ge_cases i 0) as [Hi | Hi].
  - rewrite !(proj2 (CHECK_GE_Aborts i 0) Hi). simpl.
    destruct (i <? n); reflexivity.
  - rewrite !CHECK_GE_pass by lia. simpl.
    destruct (Z.ltb_spec n (Segments.end_ r - Segments.begin_ r));
      destruct (Z.ltb_spec i n).
    + rewrite !CHECK_LT_pass by lia. reflexivity.
    + rewrite CHECK_LT_fail by lia. reflexivity.
    + reflexivity.
    + rewrite CHECK_LT_fail by lia. reflexivity.
Qed.

(** On a range of size [>= 0], [front()] is [operator[](0)] and [back()]
    is [operator[](size() - 1)], the abort on the empty range included. *)
Theorem Range_front_back_index ss (r : Segments.Range) :
  0 <= Segments.Range_size r ->
  Segments.Range_front ss r = Segments.Range_at ss r 0
  /\ Segments.Range_back ss r
     = Segments.Range_at ss r (Segments.Range_size r - 1).
Proof.
  intros Hs.
  unfold Segments.Range_front, Segments.Range_back, Segments.Range_at,
    Segments.Range_empty.
  rewrite (CHECK_GE_pass 0 0) by lia.
  unfold Segments.Range_size in *.
  destruct (Z.eqb_spec (Segments.begin_ r) (Segments.end_ r)) as [He | Hne].
  - simpl. rewrite CHECK_LT_fail by lia.
    rewrite (proj2 (CHECK_GE_Aborts _ 0)) by lia. split; reflexivity.
  - simpl. rewrite CHECK_GE_pass, !CHECK_LT_pass by lia. simpl.
    rewrite Z.add_0_r. split; [reflexivity|]. f_equal. lia.
Qed.

(** [all()[i]] is the checked form of [segment(i)]: inside
    [0 <= i < segments_size()] both give the same outcome; outside it
    [all()[i]] aborts, where [segment(i)] indexes the deque without a
    check. *)
Theorem all_index_segment ss (i : Z) :
  Segments.Range_size (Segments.all ss) = Segments.segments_size ss
  /\ (0 <= i < Segments.segments_size ss ->
      Segments.Range_at ss (Segments.all ss) i = Segments.segment ss i)
  /\ (~ (0 <= i < Segments.segments_size ss) ->
      Segments.Range_at ss (Segments.all ss) i = Aborts
      /\ Segments.segment ss i = Undefined).
Proof.
  assert (Hsz : Segments.Range_size (Segments.all ss)
                = Segments.segments_size ss).
  { unfold Segments.Range_size, Segments.all, Segments.make_range,
      Segments.begin, Segments.end', Segments.segments_size. simpl. lia. }
  split; [exact Hsz|]. split.
  - intros Hi. unfold Segments.Range_at. rewrite Hsz.
    rewrite CHECK_GE_pass, CHECK_LT_pass by lia. reflexivity.
  - intros Hi. split.
    + apply Range_at_Aborts. rewrite Hsz. exact Hi.
    + unfold Segments.segment, Segments.segments_size in *.
      destruct (Z.lt_ge_cases i 0) as [Hneg | Hpos].
      * unfold at_. destruct (Z.ltb_spec i 0); [reflexivity | lia].
      * rewrite at_out_of_range by lia. reflexivity.
Qed.

(** In a well-formed container the checks of a range that lies inside the
    segment list are complete: [operator[]], [front()] and [back()] return
    or abort, and never index the deque out of range. *)
Theorem Range_access_defined ss (r : Segments.Range) (i : Z) :
  Segments.well_formed ss -> Segments.Range_within ss r ->
  Segments.Range_at ss r i <> Undefined
  /\ Segments.Range_front ss r <> Undefined
  /\ Segments.Range_back ss r <> Undefined.
Proof.
  intros Hwf Hin.
  assert (Hat : forall j, Segments.Range_at ss r j <> Undefined).
  { intros j.
    destruct (Z.lt_ge_cases j 0) as [Hneg | Hpos].
    - rewrite (proj2 (Range_at_Aborts ss r j)) by lia. discriminate.
    - destruct (Z.lt_ge_cases j (Segments.Range_size r)) as [Hlt | Hge].
      + destruct (Range_at_within ss r j Hwf Hin) as [p [-> _]]; [lia|].
        discriminate.
      + rewrite (proj2 (Range_at_Aborts ss r j)) by lia. discriminate. }
  assert (Hs : 0 <= Segments.Range_size r).
  { unfold Segments.Range_within, Segments.Range_size in *. lia. }
  unfold Segments.Range_front, Segments.Range_back, Segments.Range_empty.
  split; [apply Hat|].
  pose proof (Hat 0) as H0.
  pose proof (Hat (Segments.Range_size r - 1)) as H1.
  unfold Segments.Range_at in H0, H1. unfold Segments.Range_size in *.
  destruct (Z.eqb_spec (Segments.begin_ r) (Segments.end_ r)) as [He | Hne];
    simpl.
  - split; discriminate.
  - rewrite CHECK_GE_pass, CHECK_LT_pass in H0, H1 by lia.
    simpl in H0, H1. rewrite Z.add_0_r in H0.
    replace (Segments.begin_ r + (Segments.end_ r - Segments.begin_ r - 1))
      with (Segments.end_ r - 1) in H1 by lia.
    split; assumption.
Qed.

(** The checks of [operator[]] compare the index with the size of the
    range only: on a range that reaches outside the segment list an index
    that passes them can still index the deque out of range. *)
Theorem Range_at_outside_list ss (r : Segments.Range) (i : Z) :
  0 <= i < Segments.Range_size r ->
  ~ (0 <= Segments.begin_ r + i < Segments.segments_size ss) ->
  Segments.Range_at ss r i = Undefined.
Proof.
  intros Hi Hout. unfold Segments.Range_at.
  rewrite CHECK_GE_pass, CHECK_LT_pass by lia. simpl.
  unfold Segments.Iterator_deref, Segments.segments_size in *.
  destruct (Z.lt_ge_cases (Segments.begin_ r + i) 0) as [Hneg | Hpos].
  - unfold at_.
    destruct (Z.ltb_spec (Segments.begin_ r + i) 0); [reflexivity | lia].
  - rewrite at_out_of_range by lia. reflexivity.
Qed.

(** [take(n)] and [drop(n)] split a range inside the segment list: the
    two parts stay inside the list and what they run over, one after the
    other, is what the range runs over; [drop], [take] and [take_last] are
    the list operations of the same names on it. *)
Theorem Range_take_drop_split ss (r : Segments.Range) (n : Z) :
  Segments.Range_within ss r -> 0 <= n ->
  exists rt rd rl,
    Segments.Range_take r n = Returns rt
    /\ Segments.Range_drop r n = Returns rd
    /\ Segments.Range_take_last r n = Returns rl
    /\ Segments.Range_within ss rt
    /\ Segments.Range_within ss rd
    /\ Segments.Range_within ss rl
    /\ Segments.Range_elements ss rt
       = take (Z.to_nat n) (Segments.Range_elements ss r)
    /\ Segments.Range_elements ss rd
       = drop (Z.to_nat n) (Segments.Range_elements ss r)
    /\ Segments.Range_elements ss rl
       = Segments.last_n n (Segments.Range_elements ss r)
    /\ Segments.Range_elements ss rt ++ Segments.Range_elements ss rd
       = Segments.Range_elements ss r.
Proof.
  intros Hin Hn.
  destruct (Range_take_elements ss r n Hin Hn) as [rt [Ht [Hwt Het]]].
  destruct (Range_drop_elements ss r n Hin Hn) as [rd [Hd [Hwd Hed]]].
  destruct (Range_take_last_elements ss r n Hin Hn)
    as [rl [Hl [Hwl Hel]]].
  exists rt, rd, rl. repeat (split; [assumption|]).
  rewrite Het, Hed. apply take_drop.
Qed.

(** [subrange(index, count)] of a range inside the segment list runs over
    the [count] elements that follow the first [index] ones, as far as
    there are any. *)
Theorem Range_subrange_elements ss (r : Segments.Range) (index count : Z) :
  Segments.Range_within ss r -> 0 <= index -> 0 <= count ->
  exists r',
    Segments.Range_subrange r index count = Returns r'
    /\ Segments.Range_within ss r'
    /\ Segments.Range_elements ss r'
       = take (Z.to_nat count)
              (drop (Z.to_nat index) (Segments.Range_elements ss r)).
Proof.
  intros Hin Hi Hc. unfold Segments.Range_subrange.
  destruct (Range_drop_elements ss r index Hin Hi) as [rd [Hd [Hwd Hed]]].
  destruct (Range_take_elements ss rd count Hwd Hc) as [rt [Ht [Hwt Het]]].
  exists rt. rewrite Hd. simpl. split; [exact Ht|]. split; [exact Hwt|].
  rewrite Het, Hed. reflexivity.
Qed.

End RangeIndexFacts.

Lemma all_within {Lattice : Type} (ss : Segments.Segments Lattice) :
  Segments.Range_within ss (Segments.all ss).
Proof.
  unfold Segments.Range_within, Segments.all, Segments.make_range,
    Segments.begin, Segments.end', size. simpl. lia.
Qed.

Lemma Range_drop_index_witness :
  (r' ← Segments.Range_drop (Segments.all Scenario.five) 2;
   Segments.Range_at Scenario.five r' 1)
  = Segments.Range_at Scenario.five (Segments.all Scenario.five) (2 + 1).
Proof.
  apply (Range_drop_index Scenario.five (Segments.all Scenario.five) 2 1);
    lia.
Defined.

Lemma Range_take_index_witness :
  (r' ← Segments.Range_take (Segments.all Scenario.five) 2;
   Segments.Range_at Scenario.five r' 1)
  = Segments.Range_at Scenario.five (Segments.all Scenario.five) 1
  /\ (r' ← Segments.Range_take (Segments.all Scenario.five) 2;
      Segments.Range_at Scenario.five r' 2) = Aborts.
Proof.
  split.
  - rewrite (Range_take_index Scenario.five
               (Segments.all Scenario.five) 2 1) by lia. reflexivity.
  - rewrite (Range_take_index Scenario.five
               (Segments.all Scenario.five) 2 2) by lia. reflexivity.
Defined.

Lemma Range_front_back_index_witness :
  Segments.Range_front Scenario.five (Segments.all Scenario.five)
  = Segments.Range_at Scenario.five (Segments.all Scenario.five) 0
  /\ Segments.Range_back Scenario.five (Segments.mkRange 3 3)
     = Segments.Range_at Scenario.five (Segments.mkRange 3 3) (-1).
Proof.
  split.
  - apply (Range_front_back_index Scenario.five
             (Segments.all Scenario.five)).
    vm_compute. discriminate.
  - apply (Range_front_back_index Scenario.five (Segments.mkRange 3 3)).
    vm_compute. discriminate.
Defined.

Lemma all_index_segment_witness :
  Segments.Range_at Scenario.five (Segments.all Scenario.five) 4
  = Segments.segment Scenario.five 4
  /\ Segments.Range_at Scenario.five (Segments.all Scenario.five) 5
     = Aborts
  /\ Segments.segment Scenario.five 5 = Undefined.
Proof.
  destruct (all_index_segment Scenario.five 4) as [_ [Hin _]].
  destruct (all_index_segment Scenario.five 5) as [_ [_ Hout]].
  split.
  - apply Hin. unfold Segments.segments_size, size. simpl. lia.
  - apply Hout. unfold Segments.segments_size, size. simpl. lia.
Defined.

Lemma Range_access_defined_witness :
  Segments.Range_at Scenario.five (Segments.all Scenario.five) 9
  <> Undefined.
Proof.
  apply (Range_access_defined Scenario.five (Segments.all Scenario.five) 9
           five_well_formed (all_within Scenario.five)).
Defined.

Lemma Range_at_outside_list_witness :
  Segments.Range_at Scenario.five (Segments.mkRange 3 9) 4 = Undefined.
Proof.
  apply (Range_at_outside_list Scenario.five (Segments.mkRange 3 9) 4).
  - unfold Segments.Range_size. simpl. lia.
  - unfold Segments.segments_size, size. simpl. lia.
Defined.

Lemma Range_take_drop_split_witness :
  exists rt rd rl,
    Segments.Range_take (Segments.all Scenario.five) 2 = Returns rt
    /\ Segments.Range_drop (Segments.all Scenario.five) 2 = Returns rd
    /\ Segments.Range_take_last (Segments.all Scenario.five) 2
       = Returns rl
    /\ Segments.Range_elements Scenario.five rt ++
       Segments.Range_elements Scenario.five rd
       = Segments.Range_elements Scenario.five (Segments.all Scenario.five).
Proof.
  destruct (Range_take_drop_split Scenario.five
              (Segments.all Scenario.five) 2 (all_within Scenario.five))
    as [rt [rd [rl [Ht [Hd [Hl [_ [_ [_ [_ [_ [_ Happ]]]]]]]]]]]]; [lia|].
  exists rt, rd, rl. auto.
Defined.

Lemma Range_subrange_elements_witness :
  exists r',
    Segments.Range_subrange (Segments.all Scenario.five) 1 3 = Returns r'
    /\ Segments.Range_elements Scenario.five r'
       = take 3 (drop 1 (Segments.Range_elements Scenario.five
                           (Segments.all Scenario.five))).
Proof.
  destruct (Range_subrange_elements Scenario.five
              (Segments.all Scenario.five) 1 3 (all_within Scenario.five))
    as [r' [Hs [_ He]]]; [lia | lia |].
  exists r'. split; [exact Hs | exact He].
Defined.

(** ** Segment: one index, one candidate *)



